(** * Synapse type library: a shallow embedding of [synapse/lib/types.py]

    The development follows the Python module top-down: Python values and
    exceptions, the string primitives the module relies on, the [DataType]
    subclasses with their [norm] and [repr] methods, and the [TypeLib]
    registry with its pending queue, inheritance tree and subtype cache. *)

From Stdlib Require Import ZArith Ascii String List Lia DecimalString DecimalZ DecimalFacts.
From stdpp Require Import gmap strings list fin_maps sorting.

Set Warnings "-register-all,-clear-no-such-hyp".
Local Open Scope string_scope.
Local Open Scope Z_scope.

(** ** Python values *)

(** The values that reach the type system: [None], booleans, integers, text
    and sequences.  [VList] stands for both [list] and [tuple]: the code only
    tests [type(x) in (list, tuple)], iterates and unpacks. *)
Inductive pyval : Type :=
| VNone
| VBool (b : bool)
| VInt (z : Z)
| VStr (s : string)
| VList (l : list pyval).

(** [s_compat.isstr], [s_compat.isint], [islist]. *)
Definition isstr (v : pyval) : bool := match v with VStr _ => true | _ => false end.
Definition isint (v : pyval) : bool := match v with VInt _ => true | _ => false end.
Definition islist (v : pyval) : bool := match v with VList _ => true | _ => false end.

(** [x is None] and Python truthiness. *)
Definition is_none (v : pyval) : bool := match v with VNone => true | _ => false end.

Definition truthy (v : pyval) : bool :=
  match v with
  | VNone => false
  | VBool b => b
  | VInt z => negb (z =? 0)
  | VStr s => negb (String.eqb s "")
  | VList l => match l with [] => false | _ => true end
  end.

(** [text == v] for a text on the left. *)
Definition str_eq_val (s : string) (v : pyval) : bool :=
  match v with VStr t => String.eqb s t | _ => false end.

(** ** Exceptions *)

Inductive exn : Type :=
| BadTypeValu
| NoSuchType (name : pyval)
| DupTypeName
| BadInfoValu
| BadStorValu
| NoSuchDyn
| NameError
| ValueError
| TypeError
| AttributeError
| ReError
| RecursionError
| PlainException.

Inductive res (A : Type) : Type :=
| Ok (a : A)
| Raise (e : exn).
Arguments Ok {A} a.
Arguments Raise {A} e.

#[global] Instance res_ret : MRet res := fun A a => Ok a.
#[global] Instance res_bind : MBind res := fun A B f m =>
  match m with Ok a => f a | Raise e => Raise e end.

#[global] Instance res_fmap : FMap res := fun A B f m =>
  match m with Ok a => Ok (f a) | Raise e => Raise e end.

Definition is_ok {A} (r : res A) : bool := match r with Ok _ => true | Raise _ => false end.

Definition of_option {A} (e : exn) (o : option A) : res A :=
  match o with Some a => Ok a | None => Raise e end.

(** Sub-property dictionaries and type-info dictionaries are keyed by text. *)
Abbreviation subs := (gmap string pyval).
Abbreviation info_t := (gmap string pyval).

(** [d.get(k)]: a missing key reads as [None]. *)
Definition dget (d : gmap string pyval) (k : string) : pyval := default VNone (d !! k).
(** [d.get(k, dflt)]. *)
Definition dget_def (d : gmap string pyval) (k : string) (dflt : pyval) : pyval :=
  default dflt (d !! k).

(** ** Text primitives

    Texts are strings of 8-bit characters.  Case folding, white space and the
    word class [\w] are those of the ASCII range; the two compiled patterns
    of the module, [guidre] and [tagre], are given as recognizers, with
    Python's reading of [$] (the end of the text, or just before a final
    newline). *)

Module Str.

Definition is_upper (c : ascii) : bool :=
  let n := nat_of_ascii c in (65 <=? n)%nat && (n <=? 90)%nat.
Definition is_digit (c : ascii) : bool :=
  let n := nat_of_ascii c in (48 <=? n)%nat && (n <=? 57)%nat.
Definition is_lower_alpha (c : ascii) : bool :=
  let n := nat_of_ascii c in (97 <=? n)%nat && (n <=? 122)%nat.
Definition is_hexlow (c : ascii) : bool :=
  let n := nat_of_ascii c in is_digit c || ((97 <=? n)%nat && (n <=? 102)%nat).
(** [\w] on the ASCII range. *)
Definition is_word (c : ascii) : bool :=
  is_digit c || is_upper c || is_lower_alpha c || Ascii.eqb c "_".
(** Characters removed by [str.strip()]. *)
Definition is_space (c : ascii) : bool :=
  let n := nat_of_ascii c in
  ((9 <=? n)%nat && (n <=? 13)%nat) || ((28 <=? n)%nat && (n <=? 32)%nat).

Definition lower_char (c : ascii) : ascii :=
  if is_upper c then ascii_of_nat (nat_of_ascii c + 32) else c.

(** [s.lower()]. *)
Fixpoint lower (s : string) : string :=
  match s with
  | EmptyString => EmptyString
  | String c s' => String (lower_char c) (lower s')
  end.

Fixpoint lstrip (l : list ascii) : list ascii :=
  match l with
  | [] => []
  | c :: l' => if is_space c then lstrip l' else l
  end.

(** [s.strip()]: white space is dropped at both ends. *)
Definition strip (s : string) : string :=
  string_of_list_ascii
    (List.rev (lstrip (List.rev (lstrip (list_ascii_of_string s))))).

Fixpoint forallb (p : ascii -> bool) (s : string) : bool :=
  match s with
  | EmptyString => true
  | String c s' => p c && forallb p s'
  end.

(** [c in s] for a single character. *)
Fixpoint mem (c : ascii) (s : string) : bool :=
  match s with
  | EmptyString => false
  | String d s' => Ascii.eqb c d || mem c s'
  end.

(** [s.replace(c, '')] for a single character. *)
Fixpoint remove (c : ascii) (s : string) : string :=
  match s with
  | EmptyString => EmptyString
  | String d s' => if Ascii.eqb c d then remove c s' else String d (remove c s')
  end.

(** The scanning loop of [str.split]: [n] splits are still allowed, [skip]
    characters of a separator just matched remain to be passed over, [cur]
    is the part being collected. *)
Fixpoint split_go (sep : string) (n skip : nat) (cur s : string) : list string :=
  match s with
  | EmptyString => [cur]
  | String c s' =>
      match skip with
      | S k => split_go sep n k cur s'
      | O =>
          match n with
          | O => [cur ++ s]
          | S n' =>
              if String.prefix sep s
              then cur :: split_go sep n' (String.length sep - 1) "" s'
              else split_go sep n O (cur ++ String c "") s'
          end
      end
  end.

Definition nsplits (maxsplit : Z) (s : string) : nat :=
  if maxsplit <? 0 then String.length s else Z.to_nat maxsplit.

(** [s.split(sep, maxsplit)]; a negative [maxsplit] means no limit and an
    empty separator is a [ValueError]. *)
Definition split (sep : string) (maxsplit : Z) (s : string) : res (list string) :=
  if String.eqb sep "" then Raise ValueError
  else Ok (split_go sep (nsplits maxsplit s) O "" s).

(** [s.rsplit(sep, maxsplit)]: the same scan from the right. *)
Definition rsplit (sep : string) (maxsplit : Z) (s : string) : res (list string) :=
  if String.eqb sep "" then Raise ValueError
  else Ok (rev (map String.rev
             (split_go (String.rev sep) (nsplits maxsplit s) O "" (String.rev s)))).

(** [sep.join(parts)]. *)
Definition join (sep : string) (parts : list string) : string := String.concat sep parts.

End Str.

(** [str.split] with a separator written in the source: never empty. *)
Definition split_lit (sep : string) (maxsplit : Z) (s : string) : list string :=
  Str.split_go sep (Str.nsplits maxsplit s) O "" s.

(** ** Integers as text: [int(text, 0)] and the [%d] / [%x] conversions *)

Module PyInt.

(** ['%d' % z]. *)
Definition fmt_d (z : Z) : string := NilZero.string_of_int (Z.to_int z).

Definition hex_char (d : Z) : ascii :=
  ascii_of_nat (Z.to_nat (if d <? 10 then 48 + d else 87 + d)).

Fixpoint hex_go (fuel : nat) (n : Z) (acc : string) : string :=
  match fuel with
  | O => acc
  | S f => if n =? 0 then acc else hex_go f (n / 16) (String (hex_char (n mod 16)) acc)
  end.

Definition hex_abs (n : Z) : string :=
  if n =? 0 then "0" else hex_go (S (Z.to_nat (Z.log2 n))) n "".

(** ['%x' % z]: lower-case digits, a leading minus sign for negatives. *)
Definition fmt_x (z : Z) : string :=
  if z <? 0 then String "-" (hex_abs (- z)) else hex_abs z.

Definition digit_val (c : ascii) : option Z :=
  let n := Z.of_nat (nat_of_ascii c) in
  if Str.is_digit c then Some (n - 48)
  else if Str.is_lower_alpha c then Some (n - 87)
  else if Str.is_upper c then Some (n - 55)
  else None.

Fixpoint digits_val (base acc : Z) (s : string) : option Z :=
  match s with
  | EmptyString => Some acc
  | String c s' =>
      match digit_val c with
      | Some d => if d <? base then digits_val base (acc * base + d) s' else None
      | None => None
      end
  end.

(** Digit grouping: a single underscore is allowed between two digits
    ([prev] tells whether the previous character was a digit). *)
Fixpoint ungroup (prev : bool) (s : string) : option string :=
  match s with
  | EmptyString => if prev then Some EmptyString else None
  | String c s' =>
      if Ascii.eqb c "_"
      then (if prev then ungroup false s' else None)
      else String c <$> ungroup true s'
  end.

#[global] Instance uint_eq_decision : EqDecision Decimal.uint := Decimal.uint_eq_dec.

(** A decimal literal: digits without a leading zero, or only zeros. *)
Definition decimal (s : string) : option Z :=
  t ← ungroup false s;
  d ← NilZero.uint_of_string t;
  if bool_decide (Decimal.nzhead d = d) || bool_decide (Decimal.nzhead d = Decimal.Nil)
  then Some (Z.of_uint d) else None.

Definition prefixed (base : Z) (rest : string) : option Z :=
  t ← ungroup true rest;
  if String.eqb t "" then None else digits_val base 0 t.

Definition parse_body (s : string) : option Z :=
  match s with
  | String "0" (String x rest) =>
      if Ascii.eqb x "x" || Ascii.eqb x "X" then prefixed 16 rest
      else if Ascii.eqb x "o" || Ascii.eqb x "O" then prefixed 8 rest
      else if Ascii.eqb x "b" || Ascii.eqb x "B" then prefixed 2 rest
      else decimal s
  | _ => decimal s
  end.

(** [int(text, 0)]; [None] is Python's [ValueError]. *)
Definition int0 (s : string) : option Z :=
  match Str.strip s with
  | String "-" b => Z.opp <$> parse_body b
  | String "+" b => parse_body b
  | b => parse_body b
  end.

End PyInt.

(** ** Ordering of values: [<], [min], [max] *)

(** Three-way comparison where Python defines an order: numbers (booleans
    count as 0 and 1), texts, and sequences element by element.  [None]
    is Python's [TypeError]. *)
Definition as_num (v : pyval) : option Z :=
  match v with
  | VInt z => Some z
  | VBool b => Some (if b then 1 else 0)
  | _ => None
  end.

Fixpoint py_cmp (a b : pyval) : option comparison :=
  match a, b with
  | VStr s, VStr t => Some (String.compare s t)
  | VList la, VList lb =>
      (fix go (la lb : list pyval) : option comparison :=
         match la, lb with
         | [], [] => Some Eq
         | [], _ :: _ => Some Lt
         | _ :: _, [] => Some Gt
         | x :: xs, y :: ys =>
             match py_cmp x y with
             | Some Eq => go xs ys
             | r => r
             end
         end) la lb
  | _, _ =>
      match as_num a, as_num b with
      | Some x, Some y => Some (x ?= y)
      | _, _ => None
      end
  end.

(** [a < b]. *)
Definition py_lt (a b : pyval) : res bool :=
  match py_cmp a b with
  | Some Lt => Ok true
  | Some _ => Ok false
  | None => Raise TypeError
  end.

(** [min(a, b)] keeps [a] unless [b < a]; [max(a, b)] keeps [a] unless [b > a]. *)
Definition py_min (a b : pyval) : res pyval :=
  lt ← py_lt b a; Ok (if lt : bool then b else a).
Definition py_max (a b : pyval) : res pyval :=
  gt ← py_lt a b; Ok (if gt : bool then b else a).

(** [min(seq)] and [max(seq)] over a non-empty sequence. *)
Fixpoint fold_res {A B} (f : A -> B -> res A) (a : A) (l : list B) : res A :=
  match l with
  | [] => Ok a
  | b :: l' => a' ← f a b; fold_res f a' l'
  end.

Definition py_min_list (l : list pyval) : res pyval :=
  match l with [] => Raise ValueError | x :: l' => fold_res py_min x l' end.
Definition py_max_list (l : list pyval) : res pyval :=
  match l with [] => Raise ValueError | x :: l' => fold_res py_max x l' end.

Fixpoint mapM {A B} (f : A -> res B) (l : list A) : res (list B) :=
  match l with
  | [] => Ok []
  | a :: l' => b ← f a; bs ← mapM f l'; Ok (b :: bs)
  end.

(** ** The host: what the module imports from outside

    [types.py] calls into [synapse.common], [synapse.lib.time],
    [synapse.lib.syntax], [re] and [json].  Their behaviour is a parameter of
    the embedding; every definition below is read for an arbitrary host. *)
Record Host : Type := {
  (** [s_common.reqStorDict(info)] accepts the dictionary ([false]: it raises). *)
  reqStorDict : info_t -> bool;
  (** [re.compile(pattern)] succeeds. *)
  re_compile : string -> bool;
  (** [re.compile(pattern).match(text)] finds a match. *)
  re_match : string -> string -> bool;
  (** [re.compile(pattern).sub('', text)]. *)
  re_sub : string -> string -> string;
  (** [fmt % valu] for formats other than ['%d'] and ['%x']. *)
  host_percent : pyval -> pyval -> res pyval;
  (** [json.dumps(valu, separators=(',', ':'))]. *)
  json_dumps : pyval -> res string;
  (** [json.dumps(json.loads(text), separators=(',', ':'))]. *)
  json_recode : string -> res string;
  (** [s_time.parse(text)]: epoch milliseconds. *)
  time_parse : string -> res Z;
  (** [s_time.repr(tick)]: a text, for the values it renders. *)
  time_repr : pyval -> res string;
  (** The value an [s_common.guid()] call returns. *)
  guid_new : string;
  (** [s_common.guid(valu)]: the digest of a value. *)
  guid_of : pyval -> string;
  (** [s_syntax.parse_list(text)]: the values and the offset reached. *)
  parse_list : string -> res (list pyval * nat);
  (** [getattr(tlib, 'getTufoByProp', None)]: the properties of the node found. *)
  getTufoByProp : option (pyval -> string -> option info_t)
}.

(** [fmt % valu]. *)
Definition percent (H : Host) (fmt valu : pyval) : res pyval :=
  match fmt, valu with
  | VStr "%d", VInt z => Ok (VStr (PyInt.fmt_d z))
  | VStr "%x", VInt z => Ok (VStr (PyInt.fmt_x z))
  | _, _ => host_percent H fmt valu
  end.

(** ** Type instances *)

(** The classes of the module. *)
Inductive cls : Type :=
| CData | CGuid | CStr | CJson | CInt | CMulti | CComp | CXref | CTime | CSepr | CBool | CTag.

#[global] Instance cls_eq_dec : EqDecision cls.
Proof. solve_decision. Defined.

(** An instance: its class, [self.name], [self.info], and the attributes that
    [CompType.__init__] and [XrefType.__init__] compute.  The attributes the
    other constructors cache ([regex], [minval], [minmax], ...) are plain
    reads of [self.info] and are read from it where they are used. *)
Record Inst : Type := {
  i_cls : cls;
  i_name : string;
  i_info : info_t;
  i_fields : list (string * string);
  i_optfields : list (string * string);
  i_sorc_name : pyval;
  i_sorc_type : pyval
}.

Definition mkInst (c : cls) (name : string) (info : info_t) : Inst :=
  {| i_cls := c; i_name := name; i_info := info; i_fields := []; i_optfields := [];
     i_sorc_name := VNone; i_sorc_type := VNone |}.

(** [subs[name] = norm] followed by [subs[name + ':' + k] = v] for the
    sub-properties of the field. *)
Definition add_subs (name : string) (norm : pyval) (ssubs : subs) (acc : subs) : subs :=
  map_fold (fun k v m => <[name ++ ":" ++ k := v]> m) (<[name := norm]> acc) ssubs.

(** [_splitpairs(text, sep0, sep1)]. *)
Definition _splitpairs (text sep0 sep1 : string) : res (list (string * string)) :=
  mapM (fun part =>
          match split_lit sep1 (-1) part with
          | [k; v] => Ok (Str.strip k, Str.strip v)
          | _ => Raise ValueError
          end)
       (split_lit sep0 (-1) text).

(** The order of [list.sort()] on pairs of texts. *)
Definition str_pair_leb (a b : string * string) : bool :=
  match String.compare a.1 b.1 with
  | Lt => true
  | Gt => false
  | Eq => match String.compare a.2 b.2 with Gt => false | _ => true end
  end.
Definition str_pair_le (a b : string * string) : Prop := str_pair_leb a b = true.
#[global] Instance str_pair_le_dec : RelDecision str_pair_le.
Proof. intros a b. unfold str_pair_le. apply _. Defined.

(** *** DataType *)
Module DataType.
(** [__init__]: [s_common.reqStorDict(info)]. *)
Definition init (H : Host) (c : cls) (name : string) (info : info_t) : res Inst :=
  if reqStorDict H info then Ok (mkInst c name info) else Raise BadStorValu.

Definition repr (valu : pyval) : res pyval := Ok valu.
End DataType.

(** *** GuidType *)
Module GuidType.
Fixpoint guid_go (n : nat) (s : string) : bool :=
  match n, s with
  | O, EmptyString => true
  | O, String c EmptyString => Ascii.eqb c "010"
  | O, _ => false
  | S k, String c s' => Str.is_hexlow c && guid_go k s'
  | S _, EmptyString => false
  end.

(** [guidre.match(text) is not None] for [guidre = '^[0-9a-f]{32}$']. *)
Definition isguid (text : string) : bool := guid_go 32 text.

Definition norm (H : Host) (self : Inst) (valu : pyval) : res (pyval * subs) :=
  match valu with
  | VStr EmptyString => Raise BadTypeValu
  | VStr (String c rest as s) =>
      if String.eqb s "*" then Ok (VStr (guid_new H), ∅)
      else if negb (Ascii.eqb c "$") then
        let retn := Str.remove "-" (Str.lower s) in
        if isguid retn then Ok (VStr retn, ∅) else Raise BadTypeValu
      else if is_none (dget (i_info self) "alias") then Raise BadTypeValu
      else
        match getTufoByProp H with
        | None => Raise BadTypeValu
        | Some look =>
            match look (dget (i_info self) "alias") rest with
            | None => Raise BadTypeValu
            | Some props =>
                match dget props "tufo:form" with
                | VStr form => Ok (dget props form, ∅)
                | VList _ => Raise TypeError
                | _ => Ok (VNone, ∅)
                end
            end
        end
  | _ => Raise BadTypeValu
  end.
End GuidType.

(** *** StrType *)
Module StrType.
Definition check_pattern (H : Host) (v : pyval) : res unit :=
  match v with
  | VNone => Ok tt
  | VStr p => if re_compile H p then Ok tt else Raise ReError
  | _ => Raise TypeError
  end.

Definition init (H : Host) (name : string) (info : info_t) : res Inst :=
  self ← DataType.init H CStr name info;
  _ ← match dget info "enums" with
      | VNone | VStr _ => Ok tt
      | _ => Raise AttributeError
      end;
  _ ← check_pattern H (dget info "regex");
  _ ← check_pattern H (dget info "restrip");
  Ok self.

Definition norm (H : Host) (self : Inst) (valu : pyval) : res (pyval * subs) :=
  let info := i_info self in
  let frob := dget info "frob_int_fmt" in
  valu ← (if truthy frob && isint valu then percent H frob valu else Ok valu);
  match valu with
  | VStr s =>
      let s := if truthy (dget info "lower") then Str.lower s else s in
      if str_eq_val s (dget info "nullval") then Ok (VStr s, ∅)
      else
        let s := match dget info "restrip" with VStr p => re_sub H p s | _ => s end in
        let s := if truthy (dget_def info "strip" (VInt 0)) then Str.strip s else s in
        let enum_ok :=
          match dget info "enums" with
          | VStr e => bool_decide (s ∈ split_lit "," (-1) e)
          | _ => true
          end in
        let regex_ok :=
          match dget info "regex" with VStr p => re_match H p s | _ => true end in
        if negb enum_ok then Raise BadTypeValu
        else if negb regex_ok then Raise BadTypeValu
        else Ok (VStr s, ∅)
  | _ => Raise BadTypeValu
  end.
End StrType.

(** *** JsonType *)
Module JsonType.
Definition norm (H : Host) (self : Inst) (valu : pyval) : res (pyval * subs) :=
  match valu with
  | VStr s =>
      match json_recode H s with
      | Ok t => Ok (VStr t, ∅)
      | Raise _ => Raise BadTypeValu
      end
  | _ => t ← json_dumps H valu; Ok (VStr t, ∅)
  end.
End JsonType.

(** The cached [self.minmax] of [IntType] and [TimeType]: [min] when [ismin]
    is set, else [max] when [ismax] is set, else nothing. *)
Inductive minmax_fn : Type := MMmin | MMmax.

Definition minmax_of (info : info_t) : option minmax_fn :=
  if truthy (dget_def info "ismin" (VBool false)) then Some MMmin
  else if truthy (dget_def info "ismax" (VBool false)) then Some MMmax
  else None.

Definition apply_minmax (f : minmax_fn) (valu oldval : pyval) : res pyval :=
  match f with MMmin => py_min valu oldval | MMmax => py_max valu oldval end.

(** [if oldval is not None and self.minmax: valu = self.minmax(valu, oldval)]. *)
Definition accumulate (info : info_t) (valu oldval : pyval) : res pyval :=
  match minmax_of info with
  | Some f => if is_none oldval then Ok valu else apply_minmax f valu oldval
  | None => Ok valu
  end.

(** *** IntType *)
Module IntType.
Definition repr (H : Host) (self : Inst) (valu : pyval) : res pyval :=
  percent H (dget_def (i_info self) "fmt" (VStr "%d")) valu.

(** [self.minval is not None and valu < self.minval]. *)
Definition below (valu bound : pyval) : res bool :=
  if is_none bound then Ok false else py_lt valu bound.
Definition above (valu bound : pyval) : res bool :=
  if is_none bound then Ok false else py_lt bound valu.

Definition norm (H : Host) (self : Inst) (valu oldval : pyval) : res (pyval * subs) :=
  let info := i_info self in
  valu ← match valu with
         | VStr s => of_option BadTypeValu (VInt <$> PyInt.int0 s)
         | _ => Ok valu
         end;
  if negb (isint valu) then Raise BadTypeValu
  else
    valu ← accumulate info valu oldval;
    lo ← below valu (dget info "min");
    if lo : bool then Raise BadTypeValu
    else
      hi ← above valu (dget info "max");
      if hi : bool then Raise BadTypeValu
      else Ok (valu, ∅).
End IntType.

(** *** TimeType *)
Module TimeType.
Definition _norm_str (H : Host) (text : string) : res (pyval * subs) :=
  t ← time_parse H text; Ok (VInt t, ∅).

Definition norm (H : Host) (self : Inst) (valu oldval : pyval) : res (pyval * subs) :=
  '(valu, subs) ← match valu with
                  | VStr s => _norm_str H s
                  | _ => Ok (valu, ∅)
                  end;
  valu ← accumulate (i_info self) valu oldval;
  Ok (valu, subs).

Definition repr (H : Host) (valu : pyval) : res pyval :=
  s ← time_repr H valu; Ok (VStr s).
End TimeType.

(** *** BoolType *)
Module BoolType.
Definition norm (self : Inst) (valu : pyval) : res (pyval * subs) :=
  match valu with
  | VStr s =>
      let s := Str.lower s in
      if bool_decide (s ∈ ["true"; "t"; "y"; "yes"; "1"; "on"]) then Ok (VInt 1, ∅)
      else if bool_decide (s ∈ ["false"; "f"; "n"; "no"; "0"; "off"]) then Ok (VInt 0, ∅)
      else Raise BadTypeValu
  | _ => Ok (VInt (if truthy valu then 1 else 0), ∅)
  end.

Definition repr (valu : pyval) : res pyval :=
  Ok (VStr (if truthy valu then "True" else "False")).
End BoolType.

(** *** TagType *)
Module TagType.
Fixpoint tag_go (seg : bool) (s : string) : bool :=
  match s with
  | EmptyString => seg
  | String c s' =>
      if Str.is_word c then tag_go true s'
      else if Ascii.eqb c "." then seg && tag_go false s'
      else if Ascii.eqb c "010" then seg && String.eqb s' ""
      else false
  end.

(** [tagre.match(text)] for [tagre = '^([\w]+\.)*[\w]+$']. *)
Definition tagre (text : string) : bool := tag_go false text.

Section norm.
(** [self.tlib.getTypeNorm]. *)
Context (getTypeNorm : pyval -> pyval -> res (pyval * subs)).

Definition seen (suffix : string) : res subs :=
  tims ← mapM (fun s => fst <$> getTypeNorm (VStr "time") (VStr s))
              (split_lit "-" (-1) suffix);
  tmin ← py_min_list tims;
  tmax ← py_max_list tims;
  Ok (<["seen:max" := tmax]> (<["seen:min" := tmin]> (∅ : subs))).

Definition norm (self : Inst) (valu : pyval) : res (pyval * subs) :=
  match valu with
  | VStr s =>
      let parts := split_lit "@" 1 s in
      subs ← match parts with
             | [_; suffix] => seen suffix
             | _ => Ok ∅
             end;
      let retn := Str.lower (List.hd "" parts) in
      if tagre retn then Ok (VStr retn, subs) else Raise BadTypeValu
  | _ => Raise AttributeError
  end.
End norm.
End TagType.

(** *** CompType *)
Module CompType.
Definition init (H : Host) (name : string) (info : info_t) : res Inst :=
  self ← DataType.init H CComp name info;
  fields ← (let fstr := dget info "fields" in
            if truthy fstr then
              match fstr with
              | VStr f =>
                  if Str.mem "=" f then _splitpairs f "," "=" else _splitpairs f "|" ","
              | _ => Raise AttributeError
              end
            else Ok []);
  optfields ← (let ostr := dget info "optfields" in
               if truthy ostr then
                 match ostr with
                 | VStr o => merge_sort str_pair_le <$> _splitpairs o "," "="
                 | _ => Raise AttributeError
                 end
               else Ok []);
  Ok {| i_cls := CComp; i_name := name; i_info := info; i_fields := fields;
        i_optfields := optfields; i_sorc_name := VNone; i_sorc_type := VNone |}.

(** [k, v = item]. *)
Definition unpack2 (item : pyval) : res (pyval * pyval) :=
  match item with
  | VList [k; v] => Ok (k, v)
  | VStr (String a (String b EmptyString)) =>
      Ok (VStr (String a EmptyString), VStr (String b EmptyString))
  | VList _ | VStr _ => Raise ValueError
  | _ => Raise TypeError
  end.

(** [opts[k] = v].  Only text keys are recorded: [opts] is read back with
    [opts.get(name)] for field names, which no other key equals; a list as
    key is unhashable. *)
Definition set_opt (opts : gmap string pyval) (item : pyval) : res (gmap string pyval) :=
  '(k, v) ← unpack2 item;
  match k with
  | VStr n => Ok (<[n := v]> opts)
  | VList _ => Raise TypeError
  | _ => Ok opts
  end.

Section norm.
Context (H : Host) (getTypeNorm : pyval -> pyval -> res (pyval * subs)).

(** The loop over the required fields. *)
Fixpoint norm_req (vals : list pyval) (fields : list (string * string))
    (acc : subs) (retn : list pyval) : res (subs * list pyval) :=
  match vals, fields with
  | v :: vals', (name, tname) :: fields' =>
      '(norm, ssubs) ← getTypeNorm (VStr tname) v;
      norm_req vals' fields' (add_subs name norm ssubs acc) (retn ++ [norm])
  | _, _ => Ok (acc, retn)
  end.

(** The loop over [self.optfields]. *)
Fixpoint norm_opt (opts : gmap string pyval) (optfields : list (string * string))
    (acc : subs) (retn : list pyval) : res (subs * list pyval) :=
  match optfields with
  | [] => Ok (acc, retn)
  | (name, tname) :: rest =>
      let v := dget opts name in
      if is_none v then norm_opt opts rest acc retn
      else
        '(norm, ssubs) ← getTypeNorm (VStr tname) v;
        norm_opt opts rest (add_subs name norm ssubs acc)
                 (retn ++ [VList [VStr name; norm]])
  end.

Definition _norm_list (self : Inst) (valu : list pyval) : res (pyval * subs) :=
  let fsize := length (i_fields self) in
  if (length valu <? fsize)%nat then Raise BadTypeValu
  else
    opts ← fold_res set_opt ∅ (drop fsize valu);
    '(acc, retn) ← norm_req (take fsize valu) (i_fields self) ∅ [];
    '(acc, retn) ← norm_opt opts (i_optfields self) acc retn;
    Ok (VStr (guid_of H (VList retn)), acc).

Definition _norm_str (self : Inst) (text : string) : res (pyval * subs) :=
  let text := Str.strip text in
  match text with
  | EmptyString => Raise BadTypeValu
  | String c _ =>
      if negb (Ascii.eqb c "(") then getTypeNorm (VStr "guid") (VStr text)
      else
        '(vals, off) ← parse_list H text;
        if negb (off =? String.length text)%nat then Raise BadTypeValu
        else _norm_list self vals
  end.

Definition norm (self : Inst) (valu : pyval) : res (pyval * subs) :=
  match valu with
  | VStr s => _norm_str self s
  | VList l => _norm_list self l
  | _ => Raise BadTypeValu
  end.
End norm.
End CompType.

(** *** XrefType *)
Module XrefType.
Definition init (H : Host) (name : string) (info : info_t) : res Inst :=
  self ← DataType.init H CXref name info;
  match dget info "source" with
  | VNone => Ok self
  | VStr sorc =>
      match split_lit "," (-1) sorc with
      | [sname; stype] =>
          Ok {| i_cls := CXref; i_name := name; i_info := info; i_fields := [];
                i_optfields := []; i_sorc_name := VStr sname; i_sorc_type := VStr stype |}
      | _ => Raise BadInfoValu
      end
  | _ => Raise AttributeError
  end.

Section norm.
Context (H : Host) (getTypeNorm : pyval -> pyval -> res (pyval * subs)).

(** The length test names [text], which is not bound in this method:
    evaluating the arguments of [_raiseBadValu] raises [NameError]. *)
Definition _norm_list (self : Inst) (valu : list pyval) : res (pyval * subs) :=
  match valu with
  | [valu; tstr; tval] =>
      '(valu, vsub) ← getTypeNorm (i_sorc_type self) valu;
      '(tval, tsub) ← getTypeNorm tstr tval;
      let iden := guid_of H (VList [valu; tstr; tval]) in
      match i_sorc_name self, tstr with
      | VStr sname, VStr ts =>
          Ok (VStr iden,
              <["xref:" ++ ts := tval]> (<["xtype" := tstr]> (<[sname := valu]> (∅ : subs))))
      | _, _ => Raise TypeError
      end
  | _ => Raise NameError
  end.

Definition _norm_str (self : Inst) (text : string) : res (pyval * subs) :=
  if (String.length text =? 32)%nat && negb (Str.mem "|" text)
  then getTypeNorm (VStr "guid") (VStr text)
  else _norm_list self (VStr <$> split_lit "|" (-1) text).

Definition norm (self : Inst) (valu : pyval) : res (pyval * subs) :=
  match valu with
  | VStr s => _norm_str self s
  | VList l => _norm_list self l
  | _ => Raise BadTypeValu
  end.
End norm.
End XrefType.

(** *** MultiFieldType and SeprType *)
Module SeprType.
Section norm.
(** [self.tlib.getTypeInst], and the [norm] and [repr] of a field's type. *)
Context (getTypeInst : string -> option Inst)
        (inst_norm : Inst -> pyval -> res (pyval * subs))
        (inst_repr : Inst -> pyval -> res pyval).

(** [text.split(',')] of an option that must be text when it is set. *)
Definition csv (v : pyval) : res (list string) :=
  if truthy v then
    match v with
    | VStr s => Ok (split_lit "," (-1) s)
    | _ => Raise AttributeError
    end
  else Ok [].

(** [MultiFieldType._get_fields]: the list the instance computes on first
    use and keeps in [self.fields]. *)
Definition _get_fields (self : Inst) : res (list (string * option Inst)) :=
  let info := i_info self in
  match dget info "fields" with
  | VNone =>
      fnames ← csv (dget info "names");
      ftypes ← csv (dget_def info "types" (VStr ""));
      if negb (length fnames =? length ftypes)%nat then Raise BadInfoValu
      else Ok (zip fnames (getTypeInst <$> ftypes))
  | fields =>
      if truthy fields then
        match fields with
        | VStr f =>
            mapM (fun part =>
                    match split_lit "," (-1) part with
                    | [fname; ftype] => Ok (fname, getTypeInst ftype)
                    | _ => Raise ValueError
                    end)
                 (split_lit "|" (-1) f)
        | _ => Raise AttributeError
        end
      else Ok []
  end.

Definition _split_str (self : Inst) (text : string) : res (list string) :=
  fields ← _get_fields self;
  let n := Z.of_nat (length fields) - 1 in
  parts ← match dget_def (i_info self) "sep" (VStr ",") with
          | VStr sep =>
              if truthy (dget_def (i_info self) "reverse" (VInt 0))
              then Str.rsplit sep n text
              else Str.split sep n text
          | _ => Raise TypeError
          end;
  if negb (length parts =? length fields)%nat then Raise BadTypeValu
  else Ok parts.

(** [tobj == self]: instances are compared by identity, and the registry
    holds one instance per name. *)
Definition same_inst (a b : Inst) : bool := bool_decide (i_name a = i_name b).

(** The loop over [self._zipvals(valu)]: it ends with the shorter of
    the two sequences. *)
Fixpoint norm_parts (self : Inst) (parts : list pyval)
    (fields : list (string * option Inst))
    (acc : subs) (reprs : list pyval) : res (subs * list pyval) :=
  match parts, fields with
  | part :: parts', (name, tobj) :: fields' =>
      '(norm, nsub, r) ←
         match tobj with
         | None => Raise AttributeError
         | Some t =>
             if same_inst t self then Ok (part, ∅, part)
             else
               '(n, ns) ← inst_norm t part;
               r ← inst_repr t n;
               Ok (n, ns, r)
         end;
      norm_parts self parts' fields' (add_subs name norm nsub acc) (reprs ++ [r])
  | _, _ => Ok (acc, reprs)
  end.

Definition as_text (v : pyval) : res string :=
  match v with VStr s => Ok s | _ => Raise TypeError end.

(** [self.sepr.join(reprs)]. *)
Definition join_reprs (self : Inst) (reprs : list pyval) : res pyval :=
  match dget_def (i_info self) "sep" (VStr ",") with
  | VStr sep => texts ← mapM as_text reprs; Ok (VStr (Str.join sep texts))
  | _ => Raise AttributeError
  end.

Definition norm (self : Inst) (valu : pyval) : res (pyval * subs) :=
  valu ← match valu with
         | VStr s => parts ← _split_str self s; Ok (VList (VStr <$> parts))
         | _ => Ok valu
         end;
  fields ← _get_fields self;
  match valu with
  | VList parts =>
      '(acc, reprs) ← norm_parts self parts fields ∅ [];
      text ← join_reprs self reprs;
      Ok (text, acc)
  | _ => Raise TypeError
  end.
End norm.
End SeprType.

(** ** TypeLib: the registry *)

(** Hashable values used as dictionary keys ([True] and [1] are one key). *)
Inductive hkey : Type := KNone | KInt (z : Z) | KStr (s : string).

#[global] Instance hkey_eq_dec : EqDecision hkey.
Proof. solve_decision. Defined.

#[global] Instance hkey_countable : Countable hkey.
Proof.
  refine (inj_countable'
    (fun k => match k with KNone => inl tt | KInt z => inr (inl z) | KStr s => inr (inr s) end)
    (fun x => match x with inl _ => KNone | inr (inl z) => KInt z | inr (inr s) => KStr s end) _).
  intros []; reflexivity.
Defined.

(** The key a value hashes to; a list is unhashable. *)
Definition hkey_of (v : pyval) : option hkey :=
  match v with
  | VNone => Some KNone
  | VBool b => Some (KInt (if b then 1 else 0))
  | VInt z => Some (KInt z)
  | VStr s => Some (KStr s)
  | VList _ => None
  end.

(** The dictionaries of a [TypeLib] ([casts] holds functions and plays no
    part in registration or normalization). *)
Record TypeLib : Type := {
  types : gmap string Inst;
  typeinfo : gmap string info_t;
  typetree : gmap string string;
  subscache : gmap (string * string) bool;
  pended : gmap hkey (list (string * info_t))
}.

Definition empty_lib : TypeLib :=
  {| types := ∅; typeinfo := ∅; typetree := ∅; subscache := ∅; pended := ∅ |}.

Definition set_types (f : gmap string Inst -> gmap string Inst) (tl : TypeLib) : TypeLib :=
  {| types := f (types tl); typeinfo := typeinfo tl; typetree := typetree tl;
     subscache := subscache tl; pended := pended tl |}.
Definition set_typeinfo (f : gmap string info_t -> gmap string info_t) (tl : TypeLib) : TypeLib :=
  {| types := types tl; typeinfo := f (typeinfo tl); typetree := typetree tl;
     subscache := subscache tl; pended := pended tl |}.
Definition set_typetree (f : gmap string string -> gmap string string) (tl : TypeLib) : TypeLib :=
  {| types := types tl; typeinfo := typeinfo tl; typetree := f (typetree tl);
     subscache := subscache tl; pended := pended tl |}.
Definition set_subscache (f : gmap (string * string) bool -> gmap (string * string) bool)
    (tl : TypeLib) : TypeLib :=
  {| types := types tl; typeinfo := typeinfo tl; typetree := typetree tl;
     subscache := f (subscache tl); pended := pended tl |}.
Definition set_pended
    (f : gmap hkey (list (string * info_t)) -> gmap hkey (list (string * info_t)))
    (tl : TypeLib) : TypeLib :=
  {| types := types tl; typeinfo := typeinfo tl; typetree := typetree tl;
     subscache := subscache tl; pended := f (pended tl) |}.

(** The classes [s_dyndeps.tryDynFunc] finds under the dotted names of this
    module. *)
Definition ctor_class (ctor : string) : option cls :=
  if String.eqb ctor "synapse.lib.types.DataType" then Some CData
  else if String.eqb ctor "synapse.lib.types.GuidType" then Some CGuid
  else if String.eqb ctor "synapse.lib.types.StrType" then Some CStr
  else if String.eqb ctor "synapse.lib.types.JsonType" then Some CJson
  else if String.eqb ctor "synapse.lib.types.IntType" then Some CInt
  else if String.eqb ctor "synapse.lib.types.MultiFieldType" then Some CMulti
  else if String.eqb ctor "synapse.lib.types.CompType" then Some CComp
  else if String.eqb ctor "synapse.lib.types.XrefType" then Some CXref
  else if String.eqb ctor "synapse.lib.types.TimeType" then Some CTime
  else if String.eqb ctor "synapse.lib.types.SeprType" then Some CSepr
  else if String.eqb ctor "synapse.lib.types.BoolType" then Some CBool
  else if String.eqb ctor "synapse.lib.types.TagType" then Some CTag
  else None.

(** Calling a class: its [__init__] chain. *)
Definition construct (H : Host) (c : cls) (name : string) (info : info_t) : res Inst :=
  match c with
  | CStr => StrType.init H name info
  | CComp => CompType.init H name info
  | CXref => XrefType.init H name info
  | _ => DataType.init H c name info
  end.

(** [s_dyndeps.tryDynFunc(ctor, tlib, name, **info)]. *)
Definition tryDynFunc (H : Host) (ctor : pyval) (name : string) (info : info_t) : res Inst :=
  match ctor with
  | VStr c =>
      match ctor_class c with
      | Some k => construct H k name info
      | None => Raise NoSuchDyn
      end
  | _ => Raise AttributeError
  end.

(** [DataType.extend]: the child's own options win, the parent's fill in. *)
Definition extend (H : Host) (self : Inst) (name : string) (info : info_t) : res Inst :=
  construct H (i_cls self) name (info ∪ i_info self).

(** How a call ends: a returned boolean or a raised exception. *)
Inductive outcome : Type :=
| Returned (b : bool)
| Raised (e : exn).

(** The number of definitions waiting in [pended]. *)
Abbreviation pending := (gmap hkey (list (string * info_t))).

Definition count_pending (p : pending) : nat :=
  map_fold (fun _ (l : list (string * info_t)) n => (length l + n)%nat) 0%nat p.

Definition pended_count (tl : TypeLib) : nat := count_pending (pended tl).

(** [self.pended[tnam].append((name, info))] on the [defaultdict]. *)
Definition pend (k : hkey) (name : string) (info : info_t) (tl : TypeLib) : TypeLib :=
  set_pended (fun p => <[k := (default [] (p !! k) ++ [(name, info)])%list]> p) tl.

Section registry.
Context (H : Host).

(** The second [try] block of [addType]: the [subof] path.  [bump] is
    [self._bumpBasePend]. *)
Definition by_subof (bump : TypeLib -> string -> option TypeLib)
    (name : string) (info : info_t) (tl : TypeLib) (subof : pyval)
    : option (outcome * TypeLib) :=
  match hkey_of subof with
  | None => Some (Raised TypeError, tl)
  | Some (KStr s) =>
      match types tl !! s with
      | Some base =>
          let tl := set_typeinfo <[name := info]> tl in
          match extend H base name info with
          | Ok item =>
              tl ← bump (set_types <[name := item]> tl) name;
              Some (Returned true,
                    set_subscache (fun _ => ∅) (set_typetree <[name := s]> tl))
          | Raise e => Some (Raised e, tl)
          end
      | None =>
          Some (Returned false, pend (KStr s) name info (set_typeinfo (delete name) tl))
      end
  | Some k =>
      Some (Returned false, pend k name info (set_typeinfo (delete name) tl))
  end.

(** The body of [addType].  When the constructor raises, the handler logs
    and removes the [typeinfo] entry, and control goes on to the [subof]
    path. *)
Definition addType_body (bump : TypeLib -> string -> option TypeLib)
    (tl : TypeLib) (name : string) (info : info_t) : option (outcome * TypeLib) :=
  match types tl !! name with
  | Some _ => Some (Raised DupTypeName, tl)
  | None =>
      let ctor := dget info "ctor" in
      let subof := dget info "subof" in
      if is_none ctor && is_none subof then Some (Raised PlainException, tl)
      else if is_none ctor then by_subof bump name info tl subof
      else
        let tl := set_typeinfo <[name := info]> tl in
        match tryDynFunc H ctor name info with
        | Ok item =>
            tl ← bump (set_types <[name := item]> tl) name;
            Some (Returned true, tl)
        | Raise _ => by_subof bump name info (set_typeinfo (delete name) tl) subof
        end
  end.

(** The loop of [_bumpBasePend(name)] over the definitions popped from
    [pended]: every exception of the inner [addType] is logged and dropped. *)
Definition bump_loop (add : TypeLib -> string -> info_t -> option (outcome * TypeLib))
    (tl : TypeLib) (nm : string) : option TypeLib :=
  foldl (fun (acc : option TypeLib) (d : string * info_t) =>
           tl ← acc; r ← add tl d.1 d.2; Some r.2)
        (Some (set_pended (delete (KStr nm)) tl))
        (default [] (pended tl !! KStr nm)).

(** [addType] and [_bumpBasePend] call each other; [fuel] bounds the depth
    of that recursion and [None] means it was not enough. *)
Fixpoint addType_f (fuel : nat) (tl : TypeLib) (name : string) (info : info_t)
    : option (outcome * TypeLib) :=
  match fuel with
  | O => None
  | S fuel' => addType_body (bump_loop (addType_f fuel')) tl name info
  end.

(** [_bumpBasePend(name)] at a given depth. *)
Definition _bumpBasePend_f (fuel : nat) (tl : TypeLib) (nm : string) : option TypeLib :=
  bump_loop (addType_f fuel) tl nm.

(** [TypeLib.addType(name, **info)].  Each nested call handles a definition
    taken out of [pended], so the depth never exceeds their number. *)
Definition addType (tl : TypeLib) (name : string) (info : info_t)
    : option (outcome * TypeLib) :=
  addType_f (S (pended_count tl)) tl name info.

(** [TypeLib.getTypeInst] / [getDataType], [isDataType], [reqDataType]. *)
Definition getTypeInst (tl : TypeLib) (name : string) : option Inst := types tl !! name.
Definition isDataType (tl : TypeLib) (name : string) : bool :=
  bool_decide (is_Some (types tl !! name)).
Definition reqDataType (tl : TypeLib) (name : pyval) : res Inst :=
  match name with
  | VStr n => of_option (NoSuchType name) (types tl !! n)
  | VList _ => Raise TypeError
  | _ => Raise (NoSuchType name)
  end.

(** The [while] loop of [getTypeBases]. *)
Fixpoint bases_loop (fuel : nat) (tt : gmap string string) (todo : option string)
    (done : list string) : option (list string) :=
  match todo with
  | None => Some done
  | Some t =>
      match fuel with
      | O => None
      | S fuel' => bases_loop fuel' tt (tt !! t) (done ++ [t])
      end
  end.

(** [TypeLib.getTypeBases(name)].  A walk longer than the tree has entries
    has entered a cycle and never ends: [None]. *)
Definition getTypeBases (tl : TypeLib) (name : string) : option (list string) :=
  reverse <$> bases_loop (S (size (typetree tl))) (typetree tl) (typetree tl !! name) [name].

(** [TypeLib.isSubType(name, base)]: the answer and the registry with its
    cache updated. *)
Definition isSubType (tl : TypeLib) (name base : string) : option (bool * TypeLib) :=
  match subscache tl !! (name, base) with
  | Some ret => Some (ret, tl)
  | None =>
      bases ← getTypeBases tl name;
      let ret := bool_decide (base ∈ bases) in
      Some (ret, set_subscache <[(name, base) := ret]> tl)
  end.
End registry.

(** ** Normalization through the registry *)

(** Python's default [sys.getrecursionlimit()]. *)
Definition recursion_limit : nat := 1000.

Section dispatch.
Context (H : Host).

(** [DataType.repr] and its overrides. *)
Definition inst_repr (self : Inst) (valu : pyval) : res pyval :=
  match i_cls self with
  | CInt => IntType.repr H self valu
  | CTime => TimeType.repr H valu
  | CBool => BoolType.repr valu
  | _ => DataType.repr valu
  end.

(** [item.norm(valu, oldval=oldval)] by class.  The multi-field classes
    call back into the registry; [fuel] is the depth of calls still
    available before Python gives up with [RecursionError]. *)
Fixpoint norm_f (fuel : nat) (tl : TypeLib) (self : Inst) (valu oldval : pyval)
    : res (pyval * subs) :=
  match fuel with
  | O => Raise RecursionError
  | S fuel' =>
      let gtn := fun (name v : pyval) =>
        inst ← reqDataType tl name; norm_f fuel' tl inst v VNone in
      match i_cls self with
      | CGuid => GuidType.norm H self valu
      | CStr => StrType.norm H self valu
      | CJson => JsonType.norm H self valu
      | CInt => IntType.norm H self valu oldval
      | CTime => TimeType.norm H self valu oldval
      | CBool => BoolType.norm self valu
      | CTag => TagType.norm gtn self valu
      | CComp => CompType.norm H gtn self valu
      | CXref => XrefType.norm H gtn self valu
      | CSepr =>
          SeprType.norm (getTypeInst tl) (fun t v => norm_f fuel' tl t v VNone)
                        inst_repr self valu
      | CData | CMulti => Raise AttributeError
      end
  end.

(** [TypeLib.getTypeNorm(name, valu, oldval)]. *)
Definition getTypeNorm_f (fuel : nat) (tl : TypeLib) (name valu oldval : pyval)
    : res (pyval * subs) :=
  inst ← reqDataType tl name; norm_f fuel tl inst valu oldval.

Definition getTypeNorm (tl : TypeLib) (name valu oldval : pyval) : res (pyval * subs) :=
  getTypeNorm_f recursion_limit tl name valu oldval.

(** [TypeLib.getTypeRepr(name, valu)]. *)
Definition getTypeRepr (tl : TypeLib) (name valu : pyval) : res pyval :=
  inst ← reqDataType tl name; inst_repr inst valu.

(** The registrations of [TypeLib.__init__]. *)
Definition mkinfo (l : list (string * pyval)) : info_t := list_to_map l.

Definition builtin_types : list (string * info_t) :=
  [ ("str", mkinfo [("ctor", VStr "synapse.lib.types.StrType"); ("doc", VStr "The base string type")]);
    ("int", mkinfo [("ctor", VStr "synapse.lib.types.IntType"); ("doc", VStr "The base integer type")]);
    ("bool", mkinfo [("ctor", VStr "synapse.lib.types.BoolType"); ("doc", VStr "A boolean type")]);
    ("json", mkinfo [("ctor", VStr "synapse.lib.types.JsonType"); ("doc", VStr "A json type (stored as str)")]);
    ("guid", mkinfo [("ctor", VStr "synapse.lib.types.GuidType"); ("doc", VStr "A Globally Unique Identifier type")]);
    ("sepr", mkinfo [("ctor", VStr "synapse.lib.types.SeprType");
                     ("doc", VStr "A multi-field composite type which uses separated repr values")]);
    ("comp", mkinfo [("ctor", VStr "synapse.lib.types.CompType");
                     ("doc", VStr "A multi-field composite type which generates a stable guid from normalized fields")]);
    ("xref", mkinfo [("ctor", VStr "synapse.lib.types.XrefType");
                     ("doc", VStr "A multi-field composite type which can be used to link a known form to an unknown form")]);
    ("time", mkinfo [("ctor", VStr "synapse.lib.types.TimeType");
                     ("doc", VStr "Timestamp in milliseconds since epoch"); ("ex", VStr "20161216084632")]);
    ("syn:tag", mkinfo [("ctor", VStr "synapse.lib.types.TagType"); ("doc", VStr "A synapse tag"); ("ex", VStr "foo.bar")]);
    ("syn:prop", mkinfo [("subof", VStr "str"); ("regex", VStr "^([\w]+:)*([\w]+|\*)$"); ("lower", VInt 1)]);
    ("syn:type", mkinfo [("subof", VStr "str"); ("regex", VStr "^([\w]+:)*[\w]+$"); ("lower", VInt 1)]);
    ("syn:glob", mkinfo [("subof", VStr "str"); ("regex", VStr "^([\w]+:)*[\w]+:\*$"); ("lower", VInt 1)]);
    ("int:min", mkinfo [("subof", VStr "int"); ("ismin", VInt 1)]);
    ("int:max", mkinfo [("subof", VStr "int"); ("ismax", VInt 1)]);
    ("str:lwr", mkinfo [("subof", VStr "str"); ("lower", VInt 1); ("strip", VInt 1)]);
    ("str:txt", mkinfo [("subof", VStr "str"); ("doc", VStr "Multi-line text or text blob.")]);
    ("str:hex", mkinfo [("subof", VStr "str"); ("frob_int_fmt", VStr "%x");
                        ("regex", VStr "^[0-9a-f]+$"); ("lower", VInt 1)]) ].

(** A run of [addType] calls; the first exception ends it. *)
Fixpoint addTypes (tl : TypeLib) (defs : list (string * info_t)) : res TypeLib :=
  match defs with
  | [] => Ok tl
  | d :: defs' =>
      match addType H tl d.1 d.2 with
      | Some (Returned _, tl') => addTypes tl' defs'
      | Some (Raised e, _) => Raise e
      | None => Raise RecursionError
      end
  end.

(** [TypeLib(load=False)]. *)
Definition TypeLib_init : res TypeLib := addTypes empty_lib builtin_types.
End dispatch.

(** A host for running examples: every dictionary is storable, every
    pattern compiles and matches, times are decimal numbers. *)
Definition example_host : Host :=
  {| reqStorDict := fun _ => true;
     re_compile := fun _ => true;
     re_match := fun _ _ => true;
     re_sub := fun _ s => s;
     host_percent := fun _ _ => Raise TypeError;
     json_dumps := fun _ => Ok "null";
     json_recode := fun _ => Ok "null";
     time_parse := fun s => of_option BadTypeValu (PyInt.decimal s);
     time_repr := fun v => match v with VInt t => Ok (PyInt.fmt_d t) | _ => Raise TypeError end;
     guid_new := "00000000000000000000000000000000";
     guid_of := fun _ => "11111111111111111111111111111111";
     parse_list := fun _ => Raise BadTypeValu;
     getTufoByProp := None |}.

(** ** More of the module: field lists, option lookup, bulk loading *)

(** *** MultiFieldType._norm_fields *)
Module MultiFieldType.
Section norm.
(** [self.tlib.getTypeInst], and the [norm] of a field's type. *)
Context (getTypeInst : string -> option Inst)
        (inst_norm : Inst -> pyval -> res (pyval * subs)).

(** What [len(valu)] and the iteration over [valu] see: the entries of a
    list, the characters of a text; other values have no length. *)
Definition items (valu : pyval) : res (list pyval) :=
  match valu with
  | VList l => Ok l
  | VStr s => Ok ((fun c => VStr (String c EmptyString)) <$> list_ascii_of_string s)
  | _ => Raise TypeError
  end.

(** The loop over [iterzip(valu, fields)]; a field whose type is not
    registered holds [None], which has no [norm]. *)
Fixpoint norm_each (vals : list pyval) (fields : list (string * option Inst))
    (acc : subs) (out : list pyval) : res (list pyval * subs) :=
  match vals, fields with
  | v :: vals', (name, item) :: fields' =>
      '(norm, fubs) ← match item with
                      | None => Raise AttributeError
                      | Some t => inst_norm t v
                      end;
      norm_each vals' fields' (add_subs name norm fubs acc) (out ++ [norm])
  | _, _ => Ok (out, acc)
  end.

Definition _norm_fields (self : Inst) (valu : pyval) : res (list pyval * subs) :=
  fields ← SeprType._get_fields getTypeInst self;
  vals ← items valu;
  if negb (length vals =? length fields)%nat then Raise BadTypeValu
  else norm_each vals fields ∅ [].
End norm.
End MultiFieldType.

(** *** TypeLib: getTypeInfo, loadDataModels *)

(** The [while] loop of [getTypeInfo]: the first definition on the [subof]
    chain of [typeinfo] that sets [prop] to something other than [None]
    decides; a name without a definition ends the walk with [defval].  The
    keys of [typeinfo] are texts, and a list cannot be looked up. *)
Fixpoint info_loop (fuel : nat) (ti : gmap string info_t) (todo : pyval)
    (prop : string) (defval : pyval) : option (res pyval) :=
  match todo with
  | VNone => Some (Ok defval)
  | _ =>
      match fuel with
      | O => None
      | S fuel' =>
          match hkey_of todo with
          | None => Some (Raise TypeError)
          | Some (KStr t) =>
              match ti !! t with
              | None => Some (Ok defval)
              | Some info =>
                  if is_none (dget info prop)
                  then info_loop fuel' ti (dget info "subof") prop defval
                  else Some (Ok (dget info prop))
              end
          | Some _ => Some (Ok defval)
          end
      end
  end.

(** [TypeLib.getTypeInfo(name, prop, defval)], which [DataType.get] calls
    with [self.name].  [None]: the walk did not end within as many steps as
    [typeinfo] has entries. *)
Definition getTypeInfo (tl : TypeLib) (name prop : string) (defval : pyval)
    : option (res pyval) :=
  info_loop (S (size (typeinfo tl))) (typeinfo tl) (VStr name) prop defval.

Section loading.
Context (H : Host).

(** The inner loop of [loadDataModels] over [moddict.get('types', ())]:
    an exception of [addType] is logged and the loop goes on. *)
Definition load_types (tl : TypeLib) (defs : list (string * info_t)) : option TypeLib :=
  foldl (fun (acc : option TypeLib) (d : string * info_t) =>
           tl ← acc; r ← addType H tl d.1 d.2; Some r.2)
        (Some tl) defs.

(** [TypeLib.loadDataModels(modtups)]; a model is given by its name and its
    [types] list. *)
Definition loadDataModels (tl : TypeLib)
    (modtups : list (string * list (string * info_t))) : option TypeLib :=
  foldl (fun (acc : option TypeLib) (m : string * list (string * info_t)) =>
           tl ← acc; load_types tl m.2)
        (Some tl) modtups.
End loading.

(** * Notions used in the statements *)

(** ** Inputs and instances for running the model *)

(** An optional entry of the input list: the pair [(key, value)]. *)
Definition pair_val (kv : string * pyval) : pyval := VList [VStr kv.1; kv.2].

(** The registry of [TypeLib.__init__] under the example host. *)
Definition default_lib : TypeLib :=
  match TypeLib_init example_host with Ok tl => tl | Raise _ => empty_lib end.

(** A two-field separated type over [str], for running [SeprType.norm]. *)
Definition demo_sepr : Inst :=
  mkInst CSepr "foo:sepr" (mkinfo [("fields", VStr "a,str|b,str"); ("sep", VStr "/")]).
Definition demo_gti (name : string) : option Inst := Some (mkInst CStr name ∅).
Definition demo_norm (t : Inst) (v : pyval) : res (pyval * subs) := StrType.norm example_host t v.
Definition demo_repr (t : Inst) (v : pyval) : res pyval := inst_repr example_host t v.

Definition demo_comp_info : info_t :=
  mkinfo [("fields", VStr "a=str"); ("optfields", VStr "z=str,b=int")].
Definition demo_comp : Inst :=
  {| i_cls := CComp; i_name := "foo:comp"; i_info := demo_comp_info;
     i_fields := [("a", "str")]; i_optfields := [("b", "int"); ("z", "str")];
     i_sorc_name := VNone; i_sorc_type := VNone |}.
(** [getTypeNorm] of the registry that [TypeLib.__init__] builds. *)
Definition demo_gtn (name valu : pyval) : res (pyval * subs) :=
  tl ← TypeLib_init example_host; getTypeNorm example_host tl name valu VNone.

(** ** Registry activity and the registries it produces *)

(** [Reg tl tl']: the registry [tl'] is reached from [tl] by the mutations
    that [addType] and [_bumpBasePend] perform.  A new name enters [types]
    only when it is not there yet; an inheritance edge [name -> s] is written,
    together with the clearing of the subtype cache, after the parent [s] was
    found, [name] entered [types], and the pending definitions were retried. *)
Inductive Reg : TypeLib → TypeLib → Prop :=
| Reg_refl tl : Reg tl tl
| Reg_trans a b c : Reg a b → Reg b c → Reg a c
| Reg_info f tl : Reg tl (set_typeinfo f tl)
| Reg_pend f tl : Reg tl (set_pended f tl)
| Reg_new tl name item :
    types tl !! name = None → i_name item = name →
    Reg tl (set_types <[name := item]> tl)
| Reg_edge tl name s base item tl3 :
    types tl !! name = None → types tl !! s = Some base → i_name item = name →
    Reg (set_types <[name := item]> tl) tl3 →
    Reg tl (set_subscache (fun _ => ∅) (set_typetree <[name := s]> tl3)).

(** A rank for every name under which each edge of the tree goes from a
    registered type to a registered type of lower rank. *)
Definition tree_ranked (tl : TypeLib) (rk : string → nat) : Prop :=
  ∀ c p, typetree tl !! c = Some p →
         is_Some (types tl !! c) ∧ is_Some (types tl !! p) ∧ (rk p < rk c)%nat.

Definition ranks_below (tl : TypeLib) (rk : string → nat) (b : nat) : Prop :=
  ∀ n, is_Some (types tl !! n) → (rk n < b)%nat.

(** From the empty registry of [TypeLib.__init__], by [addType] calls
    however they end, and by [isSubType] calls, which fill the cache. *)
Inductive reachable (H : Host) : TypeLib → Prop :=
| reach_empty : reachable H empty_lib
| reach_addType tl name info r tl' :
    reachable H tl → addType H tl name info = Some (r, tl') → reachable H tl'
| reach_isSubType tl name base r tl' :
    reachable H tl → isSubType tl name base = Some (r, tl') → reachable H tl'.

Definition cache_reflexive (tl : TypeLib) : Prop :=
  ∀ n v, subscache tl !! (n, n) = Some v → v = true.

(** [d] waits in [pended[k]]. *)
Definition pending_under (tl : TypeLib) (k : string) (d : string * info_t) : Prop :=
  d ∈ default [] (pended tl !! KStr k).




(** ** Texts and the round trip *)





(** ** Notions for the further properties *)

(** The value that [min] / [max] accumulation keeps of a new and an old
    integer: the smaller under [ismin], else the larger under [ismax], else
    the new one. *)
Definition kept (info : info_t) (v old : Z) : Z :=
  match minmax_of info with
  | Some MMmin => Z.min v old
  | Some MMmax => Z.max v old
  | None => v
  end.

(** [Act H tl tl']: what [addType] and [_bumpBasePend] do between [tl] and
    [tl'], step by step and with the facts the code has at each step.  The
    [typeinfo] entry of an unregistered name is written or removed; a
    definition is appended to [pended] under the key of its [subof], which is
    not registered; a name enters [types] with the instance its constructor
    built, or with the instance its registered parent extended to, after which
    the list pending under the name is popped and the definitions of the list
    are retried; on the [subof] path the edge is then written and the subtype
    cache cleared. *)
Inductive Act (H : Host) : TypeLib → TypeLib → Prop :=
| Act_refl tl : Act H tl tl
| Act_trans a b c : Act H a b → Act H b c → Act H a c
| Act_info_set tl name info :
    types tl !! name = None → Act H tl (set_typeinfo <[name := info]> tl)
| Act_info_del tl name :
    types tl !! name = None → Act H tl (set_typeinfo (delete name) tl)
| Act_pend tl k name info :
    types tl !! name = None →
    hkey_of (dget info "subof") = Some k →
    (∀ s, k = KStr s → types tl !! s = None) →
    Act H tl (pend k name info tl)
| Act_ctor tl name info item tl3 :
    types tl !! name = None →
    typeinfo tl !! name = Some info →
    tryDynFunc H (dget info "ctor") name info = Ok item →
    Act H (set_pended (delete (KStr name)) (set_types <[name := item]> tl)) tl3 →
    Act H tl tl3
| Act_sub tl name info s base item tl3 :
    types tl !! name = None →
    typeinfo tl !! name = Some info →
    dget info "subof" = VStr s →
    types tl !! s = Some base →
    extend H base name info = Ok item →
    Act H (set_pended (delete (KStr name)) (set_types <[name := item]> tl)) tl3 →
    Act H tl (set_subscache (fun _ => ∅) (set_typetree <[name := s]> tl3)).

(** Each registered instance carries the name it is registered under. *)
Definition names_agree (tl : TypeLib) : Prop :=
  ∀ n i, types tl !! n = Some i → i_name i = n.

(** Every waiting definition is filed under its own [subof], and that
    parent is not registered. *)
Definition waits_for_absent (tl : TypeLib) : Prop :=
  ∀ k d, pending_under tl k d → types tl !! k = None ∧ dget d.2 "subof" = VStr k.

(** Along every edge of the tree the child is an instance of its parent's
    class whose options are its own laid over the parent's. *)
Definition edges_inherit (tl : TypeLib) : Prop :=
  ∀ c p, typetree tl !! c = Some p →
    ∃ ci pi info,
      types tl !! c = Some ci ∧ types tl !! p = Some pi
      ∧ i_cls ci = i_cls pi ∧ i_info ci = info ∪ i_info pi.

(** The walk of [getTypeBases] upwards from [todo]: [rest] lists the names
    it passes, each the [typetree] parent of the one before, and the last one
    has no parent. *)
Fixpoint up_chain (tt : gmap string string) (todo : option string) (rest : list string)
    : Prop :=
  match rest with
  | [] => todo = None
  | t :: rest' => todo = Some t ∧ up_chain tt (tt !! t) rest'
  end.

(** Every cached answer is the one [getTypeBases] gives now. *)
Definition cache_sound (tl : TypeLib) : Prop :=
  ∀ n b v, subscache tl !! (n, b) = Some v →
    ∃ bases, getTypeBases tl n = Some bases ∧ v = bool_decide (b ∈ bases).

(** The value the loop [for k, v in valu[fsize:]: opts[k] = v] leaves under
    [name]: that of the last pair with this key, [None] when there is none. *)
Definition opt_value (kvs : list (string * pyval)) (name : string) : pyval :=
  foldl (fun acc kv => if String.eqb kv.1 name then kv.2 else acc) VNone kvs.

(** The definitions in [typeinfo] agree with the registry: a registered
    type has its definition there, with options that its instance carries,
    and the definition of a type with a parent in [typetree] names that
    parent as [subof]. *)
Definition defs_agree (tl : TypeLib) : Prop :=
  (∀ n i, types tl !! n = Some i →
     ∃ info, typeinfo tl !! n = Some info ∧ info ⊆ i_info i)
  ∧ (∀ c p, typetree tl !! c = Some p →
       is_Some (types tl !! c)
       ∧ ∃ info, typeinfo tl !! c = Some info ∧ dget info "subof" = VStr p).

(** A cross-reference type from [str] nodes, for running [XrefType.norm]. *)
Definition demo_xref : Inst :=
  {| i_cls := CXref; i_name := "foo:barrefs"; i_info := mkinfo [("source", VStr "bar,str")];
     i_fields := []; i_optfields := [];
     i_sorc_name := VStr "bar"; i_sorc_type := VStr "str" |}.


(** A separated type of two flags, for running [SeprType.norm] over
    [BoolType] fields. *)
Definition demo_flags : Inst :=
  mkInst CSepr "foo:flags" (mkinfo [("fields", VStr "a,bool|b,bool"); ("sep", VStr "/")]).
Definition demo_flag_inst (name : string) : option Inst := Some (mkInst CBool name ∅).
Definition demo_flag_norm (t : Inst) (v : pyval) : res (pyval * subs) := BoolType.norm t v.
Definition demo_flag_repr (t : Inst) (v : pyval) : res pyval := BoolType.repr v.

(** * Properties *)

(** ** The model at work *)

Example split_basic : split_lit "|" (-1) "a|b||c" = ["a"; "b"; ""; "c"].
Proof. reflexivity. Qed.
Example split_max1 : split_lit "@" 1 "x@y@z" = ["x"; "y@z"].
Proof. reflexivity. Qed.
Example rsplit_max1 : Str.rsplit "::" 1 "a::b::c" = Ok ["a::b"; "c"].
Proof. reflexivity. Qed.
Example strip_basic : Str.strip "  a b  " = "a b".
Proof. reflexivity. Qed.

Example int0_dec : PyInt.int0 " -120 " = Some (-120).
Proof. reflexivity. Qed.
Example int0_hex : PyInt.int0 "0xFf" = Some 255.
Proof. reflexivity. Qed.
Example int0_lead0 : PyInt.int0 "010" = None.
Proof. reflexivity. Qed.
Example int0_group : PyInt.int0 "1_000" = Some 1000.
Proof. reflexivity. Qed.
Example fmt_x_255 : PyInt.fmt_x 255 = "ff".
Proof. reflexivity. Qed.
Example fmt_d_neg : PyInt.fmt_d (-42) = "-42".
Proof. reflexivity. Qed.

Example tagre_ok : TagType.tagre "foo.bar" = true.
Proof. reflexivity. Qed.
Example tagre_bad : TagType.tagre "foo..bar" = false.
Proof. reflexivity. Qed.

Example init_registers_all :
  (tl ← TypeLib_init example_host; Ok (size (types tl), size (typetree tl), pended_count tl))
  = Ok (18%nat, 8%nat, 0%nat).
Proof. vm_compute. reflexivity. Qed.

(** ** XrefType: the part count *)

Lemma xref_norm_list_length H gtn self (valu : list pyval) :
  length valu ≠ 3%nat → XrefType._norm_list H gtn self valu = Raise NameError.
Proof.
  destruct valu as [|a [|b [|c [|d l]]]]; simpl; intros Hlen; try reflexivity.
  contradiction.
Qed.

(** C5.  A list of two or of four entries, and a pipe-separated text of two
    parts, all reach the length test of [_norm_list], whose error path names
    the unbound [text]: the call ends with [NameError], not [BadTypeValu]. *)
Theorem C5_xref_wrong_count_raises_NameError :
  ∀ H gtn self a b c d,
    XrefType.norm H gtn self (VList [a; b]) = Raise NameError
    ∧ XrefType.norm H gtn self (VList [a; b; c; d]) = Raise NameError
    ∧ XrefType.norm H gtn self (VStr "a|b") = Raise NameError
    ∧ XrefType.norm H gtn self (VStr "a|b|c|d") = Raise NameError.
Proof. intros. repeat split; reflexivity. Qed.

(** ** IntType: accumulation and bounds *)

Lemma py_min_int (v o : Z) : py_min (VInt v) (VInt o) = Ok (VInt (Z.min v o)).
Proof.
  unfold py_min, py_lt. simpl. destruct (Z.compare_spec o v); simpl; f_equal; f_equal; lia.
Qed.

Lemma py_max_int (v o : Z) : py_max (VInt v) (VInt o) = Ok (VInt (Z.max v o)).
Proof.
  unfold py_max, py_lt. simpl. destruct (Z.compare_spec v o); simpl; f_equal; f_equal; lia.
Qed.

Lemma below_int (z : Z) (lo : option Z) :
  IntType.below (VInt z) (from_option VInt VNone lo)
  = Ok (match lo with Some l => z <? l | None => false end).
Proof.
  destruct lo as [l|]; simpl; [|reflexivity].
  unfold IntType.below, py_lt. simpl. unfold Z.ltb.
  destruct (z ?= l); reflexivity.
Qed.

Lemma above_int (z : Z) (hi : option Z) :
  IntType.above (VInt z) (from_option VInt VNone hi)
  = Ok (match hi with Some h => h <? z | None => false end).
Proof.
  destruct hi as [h|]; simpl; [|reflexivity].
  unfold IntType.above, py_lt. simpl. unfold Z.ltb.
  destruct (h ?= z); reflexivity.
Qed.

(** What [IntType.norm] does with an integer once the value [m] to keep is
    known: the configured bounds decide. *)
Lemma int_norm_accumulated H self (v : Z) (oldval : pyval) (m : Z) (lo hi : option Z) :
  accumulate (i_info self) (VInt v) oldval = Ok (VInt m) →
  dget (i_info self) "min" = from_option VInt VNone lo →
  dget (i_info self) "max" = from_option VInt VNone hi →
  IntType.norm H self (VInt v) oldval
  = if match lo with Some l => m <? l | None => false end
       || match hi with Some h => h <? m | None => false end
    then Raise BadTypeValu else Ok (VInt m, ∅).
Proof.
  intros Hacc Hlo Hhi. unfold IntType.norm. simpl. rewrite Hacc. simpl.
  rewrite Hlo, Hhi, below_int. simpl.
  destruct (match lo with Some l => m <? l | None => false end); simpl; [reflexivity|].
  rewrite above_int. simpl.
  destruct (match hi with Some h => h <? m | None => false end); reflexivity.
Qed.

(** C6.  With an integer [v] and an old value [o], a type whose cached
    [minmax] is [min] (ismin) keeps [min(v, o)], one whose cached [minmax] is
    [max] (ismax) keeps [max(v, o)]; the configured bounds are then checked
    on the value kept, and a violation raises [BadTypeValu]. *)
Theorem C6_int_minmax_accumulation :
  ∀ H self (v o : Z) (f : minmax_fn) (lo hi : option Z),
    minmax_of (i_info self) = Some f →
    dget (i_info self) "min" = from_option VInt VNone lo →
    dget (i_info self) "max" = from_option VInt VNone hi →
    let m := match f with MMmin => Z.min v o | MMmax => Z.max v o end in
    IntType.norm H self (VInt v) (VInt o)
    = if match lo with Some l => m <? l | None => false end
         || match hi with Some h => h <? m | None => false end
      then Raise BadTypeValu else Ok (VInt m, ∅).
Proof.
  intros H self v o f lo hi Hf Hlo Hhi m.
  apply int_norm_accumulated; [|assumption..].
  unfold accumulate. rewrite Hf. simpl.
  destruct f; simpl; [apply py_min_int | apply py_max_int].
Qed.

Lemma C6_witness :
  IntType.norm example_host
    (mkInst CInt "int:min" (mkinfo [("subof", VStr "int"); ("ismin", VInt 1); ("max", VInt 40)]))
    (VInt 50) (VInt 30) = Ok (VInt 30, ∅).
Proof.
  exact (C6_int_minmax_accumulation example_host
           (mkInst CInt "int:min"
              (mkinfo [("subof", VStr "int"); ("ismin", VInt 1); ("max", VInt 40)]))
           50 30 MMmin None (Some 40) eq_refl eq_refl eq_refl).
Defined.

(** The two runs of the specification, through the registry of
    [TypeLib.__init__]. *)
Example int_min_50_30 :
  (tl ← TypeLib_init example_host; getTypeNorm example_host tl (VStr "int:min") (VInt 50) (VInt 30))
  = Ok (VInt 30, ∅).
Proof. vm_compute. reflexivity. Qed.

Example int_max_50_30 :
  (tl ← TypeLib_init example_host; getTypeNorm example_host tl (VStr "int:max") (VInt 50) (VInt 30))
  = Ok (VInt 50, ∅).
Proof. vm_compute. reflexivity. Qed.

(** ** SeprType: lists are zipped, texts are counted *)

Section sepr.
Context (gti : string → option Inst)
        (inorm : Inst → pyval → res (pyval * subs))
        (irepr : Inst → pyval → res pyval)
        (self : Inst).

Abbreviation norm_parts := (SeprType.norm_parts inorm irepr self).

Lemma norm_parts_nil_fields parts acc reprs :
  norm_parts parts [] acc reprs = Ok (acc, reprs).
Proof. destruct parts; reflexivity. Qed.





End sepr.


Example sepr_long_list :
  SeprType.norm demo_gti demo_norm demo_repr demo_sepr (VList [VStr "x"; VStr "y"; VStr "z"])
  = Ok (VStr "x/y", <["b" := VStr "y"]> (<["a" := VStr "x"]> ∅)).
Proof. vm_compute. reflexivity. Qed.

Example sepr_short_list :
  SeprType.norm demo_gti demo_norm demo_repr demo_sepr (VList [VStr "x"])
  = Ok (VStr "x", <["a" := VStr "x"]> ∅).
Proof. vm_compute. reflexivity. Qed.

Example sepr_short_text :
  SeprType.norm demo_gti demo_norm demo_repr demo_sepr (VStr "x")
  = Raise BadTypeValu.
Proof. vm_compute. reflexivity. Qed.

Example sepr_long_text :
  SeprType.norm demo_gti demo_norm demo_repr demo_sepr (VStr "x/y/z")
  = Ok (VStr "x/y/z", <["b" := VStr "y/z"]> (<["a" := VStr "x"]> ∅)).
Proof. vm_compute. reflexivity. Qed.

(** ** CompType: the identifier does not depend on the order of options *)

Lemma foldl_insert_list_to_map (kvs : list (string * pyval)) (m : gmap string pyval) :
  foldl (fun m kv => <[kv.1 := kv.2]> m) m kvs = list_to_map (reverse kvs) ∪ m.
Proof.
  revert m. induction kvs as [|[k v] kvs IH]; intros m; simpl.
  - rewrite (left_id_L ∅ (∪)). reflexivity.
  - rewrite IH, reverse_cons, list_to_map_app. simpl.
    rewrite <- (assoc_L (∪)). f_equal.
    rewrite insert_empty, <- insert_union_singleton_l. reflexivity.
Qed.

Lemma fold_set_opt_pairs (kvs : list (string * pyval)) (m : gmap string pyval) :
  fold_res CompType.set_opt m (pair_val <$> kvs)
  = Ok (foldl (fun m kv => <[kv.1 := kv.2]> m) m kvs).
Proof.
  revert m. induction kvs as [|[k v] kvs IH]; intros m; simpl; [reflexivity|].
  apply IH.
Qed.

(** The [opts] dictionary built from the optional pairs. *)
Lemma opts_of_pairs (kvs : list (string * pyval)) :
  fold_res CompType.set_opt ∅ (pair_val <$> kvs) = Ok (list_to_map (reverse kvs)).
Proof.
  rewrite fold_set_opt_pairs, foldl_insert_list_to_map, (right_id_L ∅ (∪)). reflexivity.
Qed.

Lemma opts_permutation (kvs1 kvs2 : list (string * pyval)) :
  NoDup kvs1.*1 → kvs1 ≡ₚ kvs2 →
  (list_to_map (reverse kvs1) : gmap string pyval) = list_to_map (reverse kvs2).
Proof.
  intros Hnd Hp. apply list_to_map_proper.
  - rewrite fmap_reverse, reverse_Permutation. exact Hnd.
  - rewrite !reverse_Permutation. exact Hp.
Qed.

Section comp.
Context (H : Host) (gtn : pyval → pyval → res (pyval * subs)).

(** The required loop appends the normalized values of the paired fields. *)
Lemma norm_req_retn vals fields acc retn acc' retn' :
  CompType.norm_req gtn vals fields acc retn = Ok (acc', retn') →
  ∃ ns, mapM (fun vf : pyval * (string * string) => fst <$> gtn (VStr vf.2.2) vf.1)
             (zip vals fields) = Ok ns
        ∧ retn' = (retn ++ ns)%list.
Proof.
  revert fields acc retn.
  induction vals as [|v vals IH]; intros [|[name tname] fields] acc retn; simpl; intros Hn;
    try (injection Hn as <- <-; exists []; rewrite app_nil_r; split; reflexivity).
  destruct (gtn (VStr tname) v) as [[norm ssubs]|e]; simpl in *; [|discriminate].
  apply IH in Hn as (ns & Hm & ->). rewrite Hm. simpl.
  exists (norm :: ns). rewrite <- app_assoc. split; reflexivity.
Qed.

(** The optional loop appends a [(name, value)] pair for each declared
    option that is present, in the order of [self.optfields]. *)
Lemma norm_opt_retn opts optfields acc retn acc' retn' :
  CompType.norm_opt gtn opts optfields acc retn = Ok (acc', retn') →
  ∃ ps, mapM (fun nt : string * string =>
                (fun r : pyval * subs => VList [VStr nt.1; r.1])
                  <$> gtn (VStr nt.2) (dget opts nt.1))
             (filter (fun nt : string * string => is_none (dget opts nt.1) = false) optfields)
        = Ok ps
        ∧ retn' = (retn ++ ps)%list.
Proof.
  revert acc retn.
  induction optfields as [|[name tname] optfields IH]; intros acc retn; simpl; intros Hn.
  - injection Hn as <- <-. exists []. rewrite app_nil_r. split; reflexivity.
  - rewrite filter_cons. simpl.
    destruct (is_none (dget opts name)) eqn:Hnone.
    + rewrite decide_False by discriminate. apply IH in Hn. exact Hn.
    + rewrite decide_True by reflexivity. simpl.
      destruct (gtn (VStr tname) (dget opts name)) as [[norm ssubs]|e]; simpl in *;
        [|discriminate].
      apply IH in Hn as (ps & Hm & ->). rewrite Hm. simpl.
      exists (VList [VStr name; norm] :: ps). rewrite <- app_assoc. split; reflexivity.
Qed.

Lemma comp_norm_list_split self (req : list pyval) (kvs : list (string * pyval)) :
  length req = length (i_fields self) →
  CompType._norm_list H gtn self (req ++ (pair_val <$> kvs))
  = ('(acc, retn) ← CompType.norm_req gtn req (i_fields self) ∅ [];
     '(acc, retn) ← CompType.norm_opt gtn (list_to_map (reverse kvs)) (i_optfields self) acc retn;
     Ok (VStr (guid_of H (VList retn)), acc)).
Proof.
  intros Hlen. unfold CompType._norm_list.
  rewrite length_app, <- Hlen.
  destruct (length req + length (pair_val <$> kvs) <? length req)%nat eqn:Hlt.
  { apply Nat.ltb_lt in Hlt. lia. }
  rewrite drop_app_length, take_app_length, opts_of_pairs. reflexivity.
Qed.
End comp.

Lemma str_pair_le_total : Total str_pair_le.
Proof.
  intros [a1 a2] [b1 b2]. unfold str_pair_le, str_pair_leb. simpl.
  rewrite (String.compare_antisym b1 a1), (String.compare_antisym b2 a2).
  destruct (String.compare a1 b1), (String.compare a2 b2); simpl; auto.
Qed.

(** [CompType.__init__] leaves [self.optfields] sorted. *)
Lemma comp_init_sorted H name info self :
  CompType.init H name info = Ok self → Sorted str_pair_le (i_optfields self).
Proof.
  unfold CompType.init. intros Hi.
  destruct (DataType.init H CComp name info) as [s0|]; simpl in Hi; [|discriminate].
  destruct (if truthy (dget info "fields") then _ else _) as [fields|]; simpl in Hi;
    [|discriminate].
  destruct (truthy (dget info "optfields")).
  - destruct (dget info "optfields") as [| | |o|]; simpl in Hi; try discriminate.
    destruct (_splitpairs o "," "=") as [ps|]; simpl in Hi; [|discriminate].
    injection Hi as <-. simpl.
    apply (Sorted_merge_sort str_pair_le (Total0 := str_pair_le_total)).
  - simpl in Hi. injection Hi as <-. simpl. constructor.
Qed.

(** C1.  For a composite type and an input list made of the required values
    followed by optional [(key, value)] pairs with distinct keys, reordering
    the optional pairs leaves the result of [_norm_list] unchanged; when it
    succeeds the identifier is the digest of the normalized required values
    followed by the [(name, normalized value)] pairs of the present options in
    the order of [self.optfields], which the constructor sorted. *)
Theorem C1_comp_identifier_order_independent :
  ∀ H gtn name info self (req : list pyval) (kvs1 kvs2 : list (string * pyval)),
    CompType.init H name info = Ok self →
    length req = length (i_fields self) →
    NoDup kvs1.*1 →
    kvs1 ≡ₚ kvs2 →
    CompType._norm_list H gtn self (req ++ (pair_val <$> kvs1))
    = CompType._norm_list H gtn self (req ++ (pair_val <$> kvs2))
    ∧ Sorted str_pair_le (i_optfields self)
    ∧ (∀ iden acc,
         CompType._norm_list H gtn self (req ++ (pair_val <$> kvs1)) = Ok (iden, acc) →
         ∃ ns ps,
           mapM (fun vf : pyval * (string * string) => fst <$> gtn (VStr vf.2.2) vf.1)
                (zip req (i_fields self)) = Ok ns
           ∧ mapM (fun nt : string * string =>
                     (fun r : pyval * subs => VList [VStr nt.1; r.1])
                       <$> gtn (VStr nt.2) (dget (list_to_map kvs1) nt.1))
                  (filter (fun nt : string * string =>
                             is_none (dget (list_to_map kvs1) nt.1) = false)
                          (i_optfields self)) = Ok ps
           ∧ iden = VStr (guid_of H (VList (ns ++ ps)))).
Proof.
  intros H gtn name info self req kvs1 kvs2 Hinit Hlen Hnd Hperm.
  rewrite !comp_norm_list_split by assumption.
  rewrite (opts_permutation kvs1 kvs2 Hnd Hperm).
  split; [reflexivity|]. split; [eapply comp_init_sorted; eassumption|].
  intros iden acc Hn.
  rewrite <- (opts_permutation kvs1 kvs2 Hnd Hperm) in Hn.
  assert (Hrev : (list_to_map (reverse kvs1) : gmap string pyval) = list_to_map kvs1).
  { apply list_to_map_proper.
    - rewrite fmap_reverse, reverse_Permutation. exact Hnd.
    - apply reverse_Permutation. }
  rewrite Hrev in Hn.
  destruct (CompType.norm_req gtn req (i_fields self) ∅ []) as [[acc1 retn1]|] eqn:Hr;
    simpl in Hn; [|discriminate].
  destruct (CompType.norm_opt gtn (list_to_map kvs1) (i_optfields self) acc1 retn1)
    as [[acc2 retn2]|] eqn:Ho; simpl in Hn; [|discriminate].
  injection Hn as <- <-.
  apply norm_req_retn in Hr as (ns & Hns & ->).
  apply norm_opt_retn in Ho as (ps & Hps & ->).
  exists ns, ps. simpl. auto.
Qed.

Lemma C1_witness :
  CompType._norm_list example_host demo_gtn demo_comp
    ([VStr "x"] ++ (pair_val <$> [("z", VStr "q"); ("b", VInt 5)]))
  = CompType._norm_list example_host demo_gtn demo_comp
    ([VStr "x"] ++ (pair_val <$> [("b", VInt 5); ("z", VStr "q")])).
Proof.
  refine (proj1 (C1_comp_identifier_order_independent example_host demo_gtn
                   "foo:comp" demo_comp_info demo_comp [VStr "x"]
                   [("z", VStr "q"); ("b", VInt 5)] [("b", VInt 5); ("z", VStr "q")]
                   _ _ _ _)).
  - vm_compute. reflexivity.
  - reflexivity.
  - simpl. repeat constructor; rewrite ?elem_of_cons, ?elem_of_nil; naive_solver.
  - apply perm_swap.
Defined.

Example comp_norm_demo :
  CompType._norm_list example_host demo_gtn demo_comp
    ([VStr "x"] ++ (pair_val <$> [("z", VStr "q"); ("b", VStr "0x10")]))
  = Ok (VStr (guid_of example_host
                (VList [VStr "x"; VList [VStr "b"; VInt 16]; VList [VStr "z"; VStr "q"]])),
        <["z" := VStr "q"]> (<["b" := VInt 16]> (<["a" := VStr "x"]> ∅))).
Proof. vm_compute. reflexivity. Qed.

(** ** TagType: the seen interval *)

#[local] Arguments String.prefix : simpl never.
#[local] Arguments String.append : simpl nomatch.

Lemma split_go_nonempty sep n skip cur s : Str.split_go sep n skip cur s ≠ [].
Proof.
  revert n skip cur. induction s as [|c s IH]; intros n skip cur; simpl; [done|].
  destruct skip; [|apply IH].
  destruct n; [done|].
  destruct (String.prefix sep (String c s)); simpl; [done | apply IH].
Qed.

Lemma string_app_assoc (a b c : string) : ((a ++ b) ++ c = a ++ (b ++ c))%string.
Proof. induction a as [|x a IH]; simpl; [reflexivity | f_equal; exact IH]. Qed.

Lemma string_app_nil_r (a : string) : (a ++ "")%string = a.
Proof. induction a as [|x a IH]; simpl; [reflexivity | f_equal; exact IH]. Qed.

Lemma prefix_char (a c : ascii) (s : string) :
  String.prefix (String a "") (String c s) = Ascii.eqb a c.
Proof.
  change (String.prefix (String a "") (String c s))
    with (if ascii_dec a c then String.prefix "" s else false).
  destruct (ascii_dec a c) as [->|Hne].
  - rewrite Ascii.eqb_refl. destruct s; reflexivity.
  - symmetry. apply Ascii.eqb_neq. exact Hne.
Qed.

(** [(tag + '@' + suffix).split('@', 1)] when [tag] holds no ['@']. *)
Lemma split_at_once (tag suffix cur : string) :
  Str.mem "@" tag = false →
  Str.split_go "@" 1 0 cur (tag ++ String "@" suffix) = [(cur ++ tag)%string; suffix].
Proof.
  revert cur. induction tag as [|c tag IH]; intros cur Hm; simpl.
  - rewrite prefix_char, Ascii.eqb_refl, string_app_nil_r. f_equal.
    destruct suffix; reflexivity.
  - change (Str.mem "@" (String c tag))
      with (Ascii.eqb "@" c || Str.mem "@" tag) in Hm.
    apply orb_false_iff in Hm as [Hc Hm].
    rewrite prefix_char, Hc, IH by assumption.
    rewrite string_app_assoc. reflexivity.
Qed.

Lemma split_tag_suffix (tag suffix : string) :
  Str.mem "@" tag = false →
  split_lit "@" 1 (tag ++ String "@" suffix) = [tag; suffix].
Proof. intros Hm. unfold split_lit. simpl. apply (split_at_once tag suffix "" Hm). Qed.

Lemma accumulate_no_oldval info valu : accumulate info valu VNone = Ok valu.
Proof. unfold accumulate. destruct (minmax_of info); reflexivity. Qed.

Lemma fold_py_min_int (a : Z) (l : list Z) :
  fold_res py_min (VInt a) (VInt <$> l) = Ok (VInt (foldl Z.min a l)).
Proof.
  revert a. induction l as [|b l IH]; intros a; simpl; [reflexivity|].
  rewrite py_min_int. simpl. apply IH.
Qed.

Lemma fold_py_max_int (a : Z) (l : list Z) :
  fold_res py_max (VInt a) (VInt <$> l) = Ok (VInt (foldl Z.max a l)).
Proof.
  revert a. induction l as [|b l IH]; intros a; simpl; [reflexivity|].
  rewrite py_max_int. simpl. apply IH.
Qed.

Lemma py_min_list_int (a : Z) (l : list Z) :
  py_min_list (VInt <$> a :: l) = Ok (VInt (foldl Z.min a l)).
Proof. apply fold_py_min_int. Qed.

Lemma py_max_list_int (a : Z) (l : list Z) :
  py_max_list (VInt <$> a :: l) = Ok (VInt (foldl Z.max a l)).
Proof. apply fold_py_max_int. Qed.

Lemma foldl_min_spec (a : Z) (l : list Z) :
  foldl Z.min a l ∈ a :: l ∧ ∀ t, t ∈ a :: l → foldl Z.min a l ≤ t.
Proof.
  revert a. induction l as [|b l IH]; intros a; simpl.
  - split; [set_solver|]. intros t Ht. apply list_elem_of_singleton in Ht. lia.
  - destruct (IH (Z.min a b)) as [Hin Hle]. split.
    + apply elem_of_cons in Hin as [Hin|Hin]; [|set_solver].
      rewrite Hin. destruct (Z.min_spec a b) as [[_ ->]|[_ ->]]; set_solver.
    + intros t Ht.
      assert (Hm : foldl Z.min (Z.min a b) l ≤ Z.min a b) by (apply Hle; set_solver).
      apply elem_of_cons in Ht as [->|Ht]; [lia|].
      apply elem_of_cons in Ht as [->|Ht]; [lia|].
      apply Hle. set_solver.
Qed.

Lemma foldl_max_spec (a : Z) (l : list Z) :
  foldl Z.max a l ∈ a :: l ∧ ∀ t, t ∈ a :: l → t ≤ foldl Z.max a l.
Proof.
  revert a. induction l as [|b l IH]; intros a; simpl.
  - split; [set_solver|]. intros t Ht. apply list_elem_of_singleton in Ht. lia.
  - destruct (IH (Z.max a b)) as [Hin Hle]. split.
    + apply elem_of_cons in Hin as [Hin|Hin]; [|set_solver].
      rewrite Hin. destruct (Z.max_spec a b) as [[_ ->]|[_ ->]]; set_solver.
    + intros t Ht.
      assert (Hm : Z.max a b ≤ foldl Z.max (Z.max a b) l) by (apply Hle; set_solver).
      apply elem_of_cons in Ht as [->|Ht]; [lia|].
      apply elem_of_cons in Ht as [->|Ht]; [lia|].
      apply Hle. set_solver.
Qed.

Lemma norm_f_tag H fuel tl self valu oldval :
  i_cls self = CTag →
  norm_f H (S fuel) tl self valu oldval
  = TagType.norm (fun name v => inst ← reqDataType tl name; norm_f H fuel tl inst v VNone)
                 self valu.
Proof. intros Hc. simpl. rewrite Hc. reflexivity. Qed.

Lemma norm_f_time H fuel tl self valu oldval :
  i_cls self = CTime →
  norm_f H (S fuel) tl self valu oldval = TimeType.norm H self valu oldval.
Proof. intros Hc. simpl. rewrite Hc. reflexivity. Qed.

Lemma time_norm_text H self (s : string) :
  TimeType.norm H self (VStr s) VNone = (fun t => (VInt t, ∅)) <$> time_parse H s.
Proof.
  unfold TimeType.norm, TimeType._norm_str.
  destruct (time_parse H s) as [t|e]; simpl; [|reflexivity].
  rewrite accumulate_no_oldval. reflexivity.
Qed.

Lemma mapM_time_texts H fuel tl timeinst (strs : list string) :
  types tl !! "time" = Some timeinst →
  i_cls timeinst = CTime →
  mapM (fun s : string =>
          fst <$> ((inst ← reqDataType tl (VStr "time");
                    norm_f H (S fuel) tl inst (VStr s) VNone) : res (pyval * subs))) strs
  = (fun l : list Z => VInt <$> l) <$> (mapM (time_parse H) strs : res (list Z)).
Proof.
  intros Ht Hc. induction strs as [|s strs IH]; [reflexivity|].
  cbn [mapM]. rewrite IH. unfold reqDataType. rewrite Ht.
  cbn [of_option mbind res_bind].
  rewrite (norm_f_time H fuel tl timeinst _ _ Hc), time_norm_text.
  destruct (time_parse H s) as [t|e]; [|reflexivity].
  cbn. destruct (mapM (time_parse H) strs); reflexivity.
Qed.

Lemma mapM_nonempty {A B} (f : A → res B) (l : list A) (r : list B) :
  mapM f l = Ok r → l ≠ [] → r ≠ [].
Proof.
  destruct l as [|a l]; [done|]. simpl. intros Hm _.
  destruct (f a); simpl in Hm; [|discriminate].
  destruct (mapM f l); simpl in Hm; [|discriminate].
  injection Hm as <-. done.
Qed.

(** C7.  A tag value [tag@suffix]: the times of the ['-']-separated suffix
    are parsed by the registered [time] type, the result is the case-folded
    tag, which must match the dotted-segment pattern, and [seen:min] and
    [seen:max] are the least and the greatest of the parsed times, whatever
    order they are written in. *)
Theorem C7_tag_seen_interval :
  ∀ H tl self timeinst fuel (tag suffix : string) (tims : list Z),
    i_cls self = CTag →
    types tl !! "time" = Some timeinst →
    i_cls timeinst = CTime →
    Str.mem "@" tag = false →
    mapM (time_parse H) (split_lit "-" (-1) suffix) = Ok tims →
    ∃ tmin tmax,
      tmin ∈ tims ∧ (∀ t, t ∈ tims → tmin ≤ t)
      ∧ tmax ∈ tims ∧ (∀ t, t ∈ tims → t ≤ tmax)
      ∧ norm_f H (S (S fuel)) tl self (VStr (tag ++ String "@" suffix)) VNone
        = if TagType.tagre (Str.lower tag)
          then Ok (VStr (Str.lower tag),
                   <["seen:max" := VInt tmax]> (<["seen:min" := VInt tmin]> ∅))
          else Raise BadTypeValu.
Proof.
  intros H tl self timeinst fuel tag suffix tims Hself Htime Hcls Htag Hparse.
  assert (Hne : tims ≠ []).
  { eapply mapM_nonempty; [exact Hparse|]. apply split_go_nonempty. }
  destruct tims as [|t0 rest]; [done|].
  exists (foldl Z.min t0 rest), (foldl Z.max t0 rest).
  destruct (foldl_min_spec t0 rest) as [Hmin1 Hmin2].
  destruct (foldl_max_spec t0 rest) as [Hmax1 Hmax2].
  repeat (split; [assumption|]).
  rewrite (norm_f_tag H _ tl self _ _ Hself).
  unfold TagType.norm. rewrite (split_tag_suffix tag suffix Htag).
  unfold TagType.seen.
  rewrite (mapM_time_texts H fuel tl timeinst _ Htime Hcls), Hparse.
  cbn [fmap res_fmap mbind res_bind].
  change (list_fmap Z pyval VInt (t0 :: rest)) with (VInt <$> t0 :: rest).
  rewrite py_min_list_int, py_max_list_int.
  cbn [mbind res_bind List.hd].
  destruct (TagType.tagre (Str.lower tag)); reflexivity.
Qed.

Lemma C7_witness :
  ∃ tmin tmax,
    tmin ∈ [20200102; 20200101] ∧ (∀ t, t ∈ [20200102; 20200101] → tmin ≤ t)
    ∧ tmax ∈ [20200102; 20200101] ∧ (∀ t, t ∈ [20200102; 20200101] → t ≤ tmax)
    ∧ norm_f example_host 2 (set_types <["time" := mkInst CTime "time" ∅]> empty_lib)
        (mkInst CTag "syn:tag" ∅) (VStr ("Foo.Bar" ++ String "@" "20200102-20200101")) VNone
      = if TagType.tagre (Str.lower "Foo.Bar")
        then Ok (VStr (Str.lower "Foo.Bar"),
                 <["seen:max" := VInt tmax]> (<["seen:min" := VInt tmin]> ∅))
        else Raise BadTypeValu.
Proof.
  refine (C7_tag_seen_interval example_host
            (set_types <["time" := mkInst CTime "time" ∅]> empty_lib)
            (mkInst CTag "syn:tag" ∅) (mkInst CTime "time" ∅) 0
            "Foo.Bar" "20200102-20200101" [20200102; 20200101] _ _ _ _ _);
    reflexivity.
Defined.

(** The run of the specification through the registry of [TypeLib.__init__],
    with the two times in either order. *)
Example tag_norm_demo :
  (tl ← TypeLib_init example_host;
   getTypeNorm example_host tl (VStr "syn:tag") (VStr "Foo.Bar@20200101-20200102") VNone)
  = Ok (VStr "foo.bar",
        <["seen:max" := VInt 20200102]> (<["seen:min" := VInt 20200101]> ∅)).
Proof. vm_compute. reflexivity. Qed.

Example tag_norm_demo_swapped :
  (tl ← TypeLib_init example_host;
   getTypeNorm example_host tl (VStr "syn:tag") (VStr "Foo.Bar@20200102-20200101") VNone)
  = Ok (VStr "foo.bar",
        <["seen:max" := VInt 20200102]> (<["seen:min" := VInt 20200101]> ∅)).
Proof. vm_compute. reflexivity. Qed.

(** ** The registry: what registrations change *)

Section registry_facts.
Context (H : Host).

Lemma construct_name c name info item :
  construct H c name info = Ok item → i_name item = name.
Proof.
  assert (Hd : ∀ c', DataType.init H c' name info = Ok item → i_name item = name).
  { intros c'. unfold DataType.init. destruct (reqStorDict H info); [|discriminate].
    intros [= <-]. reflexivity. }
  destruct c; simpl; try apply Hd.
  - unfold StrType.init. destruct (DataType.init H CStr name info) as [s0|] eqn:Hi;
      simpl; [|discriminate].
    destruct (match dget info "enums" with VNone | VStr _ => _ | _ => _ end); simpl;
      [|discriminate].
    destruct (StrType.check_pattern H (dget info "regex")); simpl; [|discriminate].
    destruct (StrType.check_pattern H (dget info "restrip")); simpl; [|discriminate].
    intros [= <-]. eapply Hd, Hi.
  - unfold CompType.init. destruct (DataType.init H CComp name info); simpl; [|discriminate].
    destruct (if truthy (dget info "fields") then _ else _); simpl; [|discriminate].
    destruct (if truthy (dget info "optfields") then _ else _); simpl; [|discriminate].
    intros [= <-]. reflexivity.
  - unfold XrefType.init. destruct (DataType.init H CXref name info) as [s0|] eqn:Hi;
      simpl; [|discriminate].
    destruct (dget info "source") as [| | |sorc|]; try discriminate.
    + intros [= <-]. eapply Hd, Hi.
    + destruct (split_lit "," (-1) sorc) as [|a [|b [|? ?]]]; try discriminate.
      intros [= <-]. reflexivity.
Qed.

Lemma tryDynFunc_name ctor name info item :
  tryDynFunc H ctor name info = Ok item → i_name item = name.
Proof.
  unfold tryDynFunc. destruct ctor; try discriminate.
  destruct (ctor_class s); [apply construct_name | discriminate].
Qed.

Lemma extend_name base name info item :
  extend H base name info = Ok item → i_name item = name.
Proof. apply construct_name. Qed.

Lemma bump_fold_none (add : TypeLib → string → info_t → option (outcome * TypeLib))
    (items : list (string * info_t)) :
  foldl (fun (acc : option TypeLib) (d : string * info_t) =>
           tl ← acc; r ← add tl d.1 d.2; Some r.2) None items = None.
Proof. induction items as [|d items IH]; [reflexivity | exact IH]. Qed.

(** An invariant of the inner [addType] calls is an invariant of the loop. *)
Lemma bump_fold_ind (add : TypeLib → string → info_t → option (outcome * TypeLib))
    (P : TypeLib → Prop) (items : list (string * info_t)) (tl tl' : TypeLib) :
  (∀ a n i r b, P a → add a n i = Some (r, b) → P b) →
  P tl →
  foldl (fun (acc : option TypeLib) (d : string * info_t) =>
           tl ← acc; r ← add tl d.1 d.2; Some r.2) (Some tl) items = Some tl' →
  P tl'.
Proof.
  intros Hadd. revert tl. induction items as [|[n i] items IH]; intros tl Hp Hf; simpl in Hf.
  - injection Hf as <-. exact Hp.
  - destruct (add tl n i) as [[r b]|] eqn:Ha; simpl in Hf.
    + eapply IH; [|exact Hf]. eapply Hadd; eassumption.
    + rewrite bump_fold_none in Hf. discriminate.
Qed.

Lemma bump_loop_Reg add tl nm tl' :
  (∀ a n i r b, add a n i = Some (r, b) → Reg a b) →
  bump_loop add tl nm = Some tl' → Reg tl tl'.
Proof.
  intros Hadd Hb. unfold bump_loop in Hb.
  eapply (bump_fold_ind add (Reg tl)); [| |exact Hb].
  - intros a n i r b Ha Hab. eapply Reg_trans; [exact Ha|]. eapply Hadd, Hab.
  - apply Reg_pend.
Qed.

Lemma by_subof_Reg bump name info tl0 tl subof r tl' :
  (∀ a nm b, bump a nm = Some b → Reg a b) →
  types tl !! name = None →
  types tl0 = types tl →
  Reg tl0 tl →
  by_subof H bump name info tl subof = Some (r, tl') → Reg tl0 tl'.
Proof.
  intros Hbump Hnew Hty Hreg. unfold by_subof.
  destruct (hkey_of subof) as [[| |s]|]; intros Hb.
  - injection Hb as <- <-.
    eapply Reg_trans; [exact Hreg|]. eapply Reg_trans; [apply Reg_info | apply Reg_pend].
  - injection Hb as <- <-.
    eapply Reg_trans; [exact Hreg|]. eapply Reg_trans; [apply Reg_info | apply Reg_pend].
  - destruct (types tl !! s) as [base|] eqn:Hs.
    + destruct (extend H base name info) as [item|e] eqn:He.
      * destruct (bump _ name) as [tl3|] eqn:Hb3; simpl in Hb; [|discriminate].
        injection Hb as <- <-.
        eapply Reg_trans; [exact Hreg|].
        eapply Reg_trans; [apply (Reg_info <[name := info]>)|].
        eapply (Reg_edge _ name s base item tl3); simpl;
          [exact Hnew | exact Hs | eapply extend_name, He |].
        eapply Hbump, Hb3.
      * injection Hb as <- <-. eapply Reg_trans; [exact Hreg | apply Reg_info].
    + injection Hb as <- <-.
      eapply Reg_trans; [exact Hreg|]. eapply Reg_trans; [apply Reg_info | apply Reg_pend].
  - injection Hb as <- <-. exact Hreg.
Qed.

Lemma addType_body_Reg bump tl name info r tl' :
  (∀ a nm b, bump a nm = Some b → Reg a b) →
  addType_body H bump tl name info = Some (r, tl') → Reg tl tl'.
Proof.
  intros Hbump. unfold addType_body.
  destruct (types tl !! name) as [old|] eqn:Hnew.
  { intros [= <- <-]. apply Reg_refl. }
  destruct (is_none (dget info "ctor") && is_none (dget info "subof")).
  { intros [= <- <-]. apply Reg_refl. }
  destruct (is_none (dget info "ctor")).
  { apply by_subof_Reg; [exact Hbump | exact Hnew | reflexivity | apply Reg_refl]. }
  destruct (tryDynFunc H (dget info "ctor") name info) as [item|e] eqn:Hc.
  - destruct (bump _ name) as [tl3|] eqn:Hb3; simpl; [|discriminate].
    intros [= <- <-].
    eapply Reg_trans; [apply (Reg_info <[name := info]>)|].
    eapply Reg_trans; [|eapply Hbump, Hb3].
    apply Reg_new; [exact Hnew | eapply tryDynFunc_name, Hc].
  - apply by_subof_Reg; [exact Hbump | exact Hnew | reflexivity |].
    eapply Reg_trans; apply Reg_info.
Qed.

(** Every [addType] call, however it ends, is a registry activity. *)
Lemma addType_f_Reg fuel tl name info r tl' :
  addType_f H fuel tl name info = Some (r, tl') → Reg tl tl'.
Proof.
  revert tl name info r tl'. induction fuel as [|fuel IH]; intros tl name info r tl';
    simpl; [discriminate|].
  apply addType_body_Reg. intros a nm b. apply bump_loop_Reg. exact IH.
Qed.

Lemma addType_Reg tl name info r tl' :
  addType H tl name info = Some (r, tl') → Reg tl tl'.
Proof. apply addType_f_Reg. Qed.
End registry_facts.

(** *** Registered types stay, and the cache is cleared with every edge *)

Lemma Reg_types_grow tl tl' :
  Reg tl tl' → ∀ n i, types tl !! n = Some i → types tl' !! n = Some i.
Proof.
  induction 1 as [tl|a b c _ IH1 _ IH2|f tl|f tl|tl name item Hnew _
                 |tl name s base item tl3 Hnew Hs _ _ IH]; intros n i Hn; simpl; auto.
  - rewrite lookup_insert_ne; [exact Hn | congruence].
  - apply IH. simpl. rewrite lookup_insert_ne; [exact Hn | congruence].
Qed.

(** Over any registry activity, either the tree and the cache are both as
    they were, or the cache is empty. *)
Lemma Reg_cache tl tl' :
  Reg tl tl' →
  (typetree tl' = typetree tl ∧ subscache tl' = subscache tl) ∨ subscache tl' = ∅.
Proof.
  induction 1 as [tl|a b c _ IH1 _ IH2|f tl|f tl|tl name item Hnew _
                 |tl name s base item tl3 Hnew Hs _ _ IH]; simpl; auto.
  destruct IH1 as [[Ht1 Hc1]|Hc1], IH2 as [[Ht2 Hc2]|Hc2]; auto.
  - left. split; congruence.
  - right. congruence.
Qed.

(** C8.  Whenever an [addType] call changes the inheritance tree, the
    subtype cache is empty when the call ends, so that every later
    [isSubType] answer is computed from the tree as it then is. *)
Theorem C8_edge_clears_subtype_cache :
  ∀ H tl name info r tl',
    addType H tl name info = Some (r, tl') →
    typetree tl' ≠ typetree tl →
    subscache tl' = ∅
    ∧ ∀ n base,
        isSubType tl' n base
        = (bases ← getTypeBases tl' n;
           Some (bool_decide (base ∈ bases),
                 set_subscache <[(n, base) := bool_decide (base ∈ bases)]> tl')).
Proof.
  intros H tl name info r tl' Hadd Hne.
  assert (Hc : subscache tl' = ∅).
  { destruct (Reg_cache tl tl' (addType_Reg H tl name info r tl' Hadd)) as [[Ht _]|Hc];
      [contradiction | exact Hc]. }
  split; [exact Hc|].
  intros n base. unfold isSubType. rewrite Hc, lookup_empty. reflexivity.
Qed.

(** *** [addType] always returns *)

#[local] Arguments count_pending : simpl never.

Lemma count_pending_delete (p : pending) (k : hkey) :
  (count_pending (delete k p) + length (default [] (p !! k)) = count_pending p)%nat.
Proof.
  unfold count_pending. destruct (p !! k) as [l|] eqn:Hk; simpl.
  - rewrite (map_fold_delete_L _ _ k l p); [lia | intros; lia | exact Hk].
  - rewrite delete_id by exact Hk. lia.
Qed.

Lemma count_pending_insert (p : pending) (k : hkey) (l : list (string * info_t)) :
  (count_pending (<[k := l]> p) + length (default [] (p !! k))
   = count_pending p + length l)%nat.
Proof.
  rewrite <- (count_pending_delete p k).
  rewrite <- (insert_delete_eq p k l).
  unfold count_pending at 1.
  rewrite map_fold_insert_L;
    [fold (count_pending (delete k p)); lia | intros; lia | apply lookup_delete_eq].
Qed.

Lemma pended_count_pend k name info tl :
  pended_count (pend k name info tl) = S (pended_count tl).
Proof.
  unfold pended_count, pend. simpl.
  pose proof (count_pending_insert (pended tl) k
                (default [] (pended tl !! k) ++ [(name, info)])) as Hc.
  rewrite length_app in Hc. simpl in Hc. lia.
Qed.

Section totality.
Context (H : Host).

Lemma bump_fold_total fuel :
  (∀ tl n i, (pended_count tl < fuel)%nat →
     ∃ r tl', addType_f H fuel tl n i = Some (r, tl')
              ∧ (pended_count tl' ≤ S (pended_count tl))%nat) →
  ∀ items a, (pended_count a + length items ≤ fuel)%nat →
    ∃ b, foldl (fun (acc : option TypeLib) (d : string * info_t) =>
                  tl ← acc; r ← addType_f H fuel tl d.1 d.2; Some r.2)
               (Some a) items = Some b
         ∧ (pended_count b ≤ pended_count a + length items)%nat.
Proof.
  intros IH items. induction items as [|[n i] items IHi]; intros a Hle; simpl in *.
  - exists a. split; [reflexivity | lia].
  - destruct (IH a n i ltac:(lia)) as (r & a' & -> & Hc). simpl.
    destruct (IHi a' ltac:(lia)) as (b & -> & Hb).
    exists b. split; [reflexivity | lia].
Qed.

Lemma bump_loop_total fuel tl nm :
  (∀ tl n i, (pended_count tl < fuel)%nat →
     ∃ r tl', addType_f H fuel tl n i = Some (r, tl')
              ∧ (pended_count tl' ≤ S (pended_count tl))%nat) →
  (pended_count tl ≤ fuel)%nat →
  ∃ b, bump_loop (addType_f H fuel) tl nm = Some b
       ∧ (pended_count b ≤ pended_count tl)%nat.
Proof.
  intros IH Hle. unfold bump_loop.
  pose proof (count_pending_delete (pended tl) (KStr nm)) as Hd.
  destruct (bump_fold_total fuel IH (default [] (pended tl !! KStr nm))
              (set_pended (delete (KStr nm)) tl)) as (b & Hb & Hc).
  - unfold pended_count in *. simpl. lia.
  - exists b. split; [exact Hb|].
    unfold pended_count in *. simpl in Hc. lia.
Qed.

Lemma by_subof_total bump name info tl subof :
  (∀ a, pended_count a = pended_count tl →
     ∃ b, bump a name = Some b ∧ (pended_count b ≤ pended_count a)%nat) →
  ∃ r tl', by_subof H bump name info tl subof = Some (r, tl')
           ∧ (pended_count tl' ≤ S (pended_count tl))%nat.
Proof.
  intros Hbump. unfold by_subof.
  destruct (hkey_of subof) as [[| |s]|].
  - eexists _, _. split; [reflexivity|]. rewrite pended_count_pend. reflexivity.
  - eexists _, _. split; [reflexivity|]. rewrite pended_count_pend. reflexivity.
  - destruct (types tl !! s) as [base|].
    + destruct (extend H base name info) as [item|e].
      * destruct (Hbump (set_types <[name := item]> (set_typeinfo <[name := info]> tl))
                    eq_refl) as (b & -> & Hb).
        eexists _, _. split; [reflexivity|].
        unfold pended_count in *. simpl in *. lia.
      * eexists _, _. split; [reflexivity|]. unfold pended_count. simpl. lia.
    + eexists _, _. split; [reflexivity|]. rewrite pended_count_pend. reflexivity.
  - eexists _, _. split; [reflexivity|]. lia.
Qed.

Lemma addType_f_total fuel tl name info :
  (pended_count tl < fuel)%nat →
  ∃ r tl', addType_f H fuel tl name info = Some (r, tl')
           ∧ (pended_count tl' ≤ S (pended_count tl))%nat.
Proof.
  revert tl name info. induction fuel as [|fuel IH]; intros tl name info Hlt; [lia|].
  simpl. unfold addType_body.
  assert (Hbump : ∀ a, pended_count a = pended_count tl →
            ∃ b, bump_loop (addType_f H fuel) a name = Some b
                 ∧ (pended_count b ≤ pended_count a)%nat).
  { intros a Ha. apply bump_loop_total; [exact IH | lia]. }
  destruct (types tl !! name).
  { eexists _, _. split; [reflexivity | lia]. }
  destruct (is_none (dget info "ctor") && is_none (dget info "subof")).
  { eexists _, _. split; [reflexivity | lia]. }
  destruct (is_none (dget info "ctor")).
  { apply by_subof_total. exact Hbump. }
  destruct (tryDynFunc H (dget info "ctor") name info) as [item|e].
  - destruct (Hbump (set_types <[name := item]> (set_typeinfo <[name := info]> tl))
                eq_refl) as (b & -> & Hb).
    eexists _, _. split; [reflexivity|].
    unfold pended_count in *. simpl in *. lia.
  - apply (by_subof_total _ name info (set_typeinfo (delete name)
             (set_typeinfo <[name := info]> tl))).
    exact Hbump.
Qed.

End totality.

(** ** addType: a constructor that raises *)

(** After the constructor raised, the [subof] path runs with whatever
    [subof] is; when it is absent the definition joins [pended] under the
    key [None]. *)
Lemma addType_failed_ctor H tl name info e :
  types tl !! name = None →
  is_none (dget info "ctor") = false →
  tryDynFunc H (dget info "ctor") name info = Raise e →
  dget info "subof" = VNone →
  addType H tl name info
  = Some (Returned false,
          pend KNone name info
            (set_typeinfo (delete name)
               (set_typeinfo (delete name) (set_typeinfo <[name := info]> tl)))).
Proof.
  intros Hnew Hctor Hraise Hsub. unfold addType. simpl. unfold addType_body.
  rewrite Hnew, Hctor, Hraise, Hsub. reflexivity.
Qed.

(** C4.  [addType('foo:bar', ctor='no.such.Ctor')] on an empty registry: the
    constructor lookup raises, the handler removes the [typeinfo] entry, and
    the call goes on into the [subof] path, where [reqDataType(None)] raises
    [NoSuchType]: the call returns [False] with the definition appended to
    [pended[None]].  The name is in neither [types] nor [typeinfo], but the
    definition was enqueued. *)
Theorem C4_failed_ctor_is_enqueued :
  ∀ H, ∃ tl',
    addType H empty_lib "foo:bar" (mkinfo [("ctor", VStr "no.such.Ctor")])
    = Some (Returned false, tl')
    ∧ pended tl' !! KNone = Some [("foo:bar", mkinfo [("ctor", VStr "no.such.Ctor")])]
    ∧ types tl' !! "foo:bar" = None
    ∧ typeinfo tl' !! "foo:bar" = None.
Proof.
  intros H. eexists. split.
  - apply (addType_failed_ctor H empty_lib "foo:bar" _ NoSuchDyn); reflexivity.
  - repeat split; vm_compute; reflexivity.
Qed.

(** With both [ctor] and [subof] given, a constructor that raises does not
    end the registration either: the type is built from its parent. *)
Example failed_ctor_then_subof :
  (tl ← TypeLib_init example_host;
   match addType example_host tl "foo:bar"
           (mkinfo [("ctor", VStr "no.such.Ctor"); ("subof", VStr "str")]) with
   | Some (r, tl') => Ok (r, isDataType tl' "foo:bar", typetree tl' !! "foo:bar")
   | None => Raise RecursionError
   end)
  = Ok (Returned true, true, Some "str").
Proof. vm_compute. reflexivity. Qed.

Lemma C8_witness :
  subscache (set_subscache (fun _ => ∅)
               (set_typetree <["a:b" := "a"]>
                  (set_types <["a:b" := mkInst CStr "a:b"
                                          (mkinfo [("subof", VStr "a")] ∪ (∅ : info_t))]>
                     (set_typeinfo <["a:b" := mkinfo [("subof", VStr "a")]]>
                        (set_types <["a" := mkInst CStr "a" ∅]> empty_lib))))) = ∅.
Proof.
  refine (proj1 (C8_edge_clears_subtype_cache example_host
                   (set_types <["a" := mkInst CStr "a" ∅]> empty_lib)
                   "a:b" (mkinfo [("subof", VStr "a")]) (Returned true) _ _ _)).
  - vm_compute. reflexivity.
  - vm_compute. discriminate.
Defined.

(** ** The inheritance tree has no cycle *)

Lemma ranked_new tl name item rk b :
  types tl !! name = None →
  tree_ranked tl rk → ranks_below tl rk b →
  let rk1 := fun n => if decide (n = name) then b else rk n in
  tree_ranked (set_types <[name := item]> tl) rk1
  ∧ ranks_below (set_types <[name := item]> tl) rk1 (S b)
  ∧ (∀ n, is_Some (types tl !! n) → rk1 n = rk n)
  ∧ rk1 name = b.
Proof.
  intros Hnew Ht Hb rk1.
  assert (Hold : ∀ n, is_Some (types tl !! n) → rk1 n = rk n).
  { intros n [i Hn]. unfold rk1. destruct (decide (n = name)) as [->|]; congruence. }
  split; [|split; [|split]].
  - intros c p Hcp. destruct (Ht c p Hcp) as ([i Hc] & [j Hp] & Hlt).
    simpl. rewrite !lookup_insert_ne by congruence.
    rewrite !Hold by eauto. eauto.
  - intros n. simpl. unfold rk1. destruct (decide (n = name)) as [->|Hne]; [lia|].
    rewrite lookup_insert_ne by congruence. intros Hn. apply Hb in Hn. lia.
  - exact Hold.
  - unfold rk1. rewrite decide_True; reflexivity.
Qed.

(** Registrations keep the tree ranked: the ranks of the types already
    registered stay, new types get ranks above them. *)
Lemma Reg_ranked tl tl' :
  Reg tl tl' →
  ∀ rk b, tree_ranked tl rk → ranks_below tl rk b →
    ∃ rk' b', tree_ranked tl' rk' ∧ ranks_below tl' rk' b'
              ∧ ∀ n, is_Some (types tl !! n) → rk' n = rk n.
Proof.
  induction 1 as [tl|a b0 c Hab IH1 Hbc IH2|f tl|f tl|tl name item Hnew _
                 |tl name s base item tl3 Hnew Hs _ Hin IH]; intros rk b Ht Hb.
  - exists rk, b. auto.
  - destruct (IH1 rk b Ht Hb) as (rk1 & b1 & Ht1 & Hb1 & Hk1).
    destruct (IH2 rk1 b1 Ht1 Hb1) as (rk2 & b2 & Ht2 & Hb2 & Hk2).
    exists rk2, b2. split; [exact Ht2 | split; [exact Hb2|]].
    intros n [i Hn]. rewrite Hk2, Hk1; eauto.
    exists i. eapply Reg_types_grow; eassumption.
  - exists rk, b. auto.
  - exists rk, b. auto.
  - destruct (ranked_new tl name item rk b Hnew Ht Hb) as (Ht1 & Hb1 & Hk1 & _).
    eexists _, _. eauto.
  - destruct (ranked_new tl name item rk b Hnew Ht Hb) as (Ht1 & Hb1 & Hk1 & Hn1).
    destruct (IH _ _ Ht1 Hb1) as (rk3 & b3 & Ht3 & Hb3 & Hk3).
    assert (Hname : is_Some (types (set_types <[name := item]> tl) !! name)).
    { simpl. rewrite lookup_insert_eq. eauto. }
    assert (Hbase : is_Some (types (set_types <[name := item]> tl) !! s)).
    { simpl. rewrite lookup_insert_ne by congruence. eauto. }
    exists rk3, b3. split; [|split].
    + intros c p Hcp. simpl in Hcp. simpl.
      destruct (decide (c = name)) as [->|Hne].
      * rewrite lookup_insert_eq in Hcp. injection Hcp as <-.
        destruct Hname as [i Hi], Hbase as [j Hj].
        pose proof (Reg_types_grow _ _ Hin _ _ Hi) as Hi3.
        pose proof (Reg_types_grow _ _ Hin _ _ Hj) as Hj3.
        split; [eauto|]. split; [eauto|].
        rewrite (Hk3 s) by eauto. rewrite (Hk3 name) by eauto.
        rewrite Hn1, Hk1 by eauto. apply Hb. eauto.
      * rewrite lookup_insert_ne in Hcp by congruence. apply (Ht3 c p Hcp).
    + exact Hb3.
    + intros n [i Hn]. rewrite Hk3, Hk1; eauto.
      simpl. rewrite lookup_insert_ne by congruence. eauto.
Qed.

(** *** [getTypeBases] ends, and starts its walk at the name *)

Lemma bases_loop_keeps fuel tt todo done l :
  bases_loop fuel tt todo done = Some l → ∀ x, x ∈ done → x ∈ l.
Proof.
  revert todo done. induction fuel as [|fuel IH]; intros [t|] done; simpl;
    try discriminate; try (intros [= <-]; auto).
  intros Hl x Hx. eapply IH; [exact Hl|]. apply elem_of_app. auto.
Qed.

Lemma bases_loop_total (tt : gmap string string) (rk : string → nat) :
  (∀ c p, tt !! c = Some p → (rk p < rk c)%nat) →
  ∀ fuel t done,
    (size (filter (fun c => (rk c ≤ rk t)%nat) (dom tt)) < fuel)%nat →
    ∃ l, bases_loop fuel tt (Some t) done = Some l.
Proof.
  intros Hrk. induction fuel as [|fuel IH]; intros t done Hsz; [lia|].
  simpl. destruct (tt !! t) as [p|] eqn:Ht.
  - apply IH.
    eapply Nat.lt_le_trans; [apply subset_size | apply Nat.lt_succ_r, Hsz].
    split.
    + intros x. rewrite !elem_of_filter. intros [Hx Hd].
      apply Hrk in Ht. split; [lia | exact Hd].
    + intros Hsub.
      assert (Hin : t ∈ filter (fun c => (rk c ≤ rk p)%nat) (dom tt)).
      { apply Hsub, elem_of_filter. split; [lia | apply elem_of_dom; eauto]. }
      apply elem_of_filter in Hin as [Hle _]. apply Hrk in Ht. lia.
  - destruct fuel; simpl; eauto.
Qed.

Lemma getTypeBases_ranked tl rk name :
  tree_ranked tl rk →
  ∃ bases, getTypeBases tl name = Some bases ∧ name ∈ bases.
Proof.
  intros Ht. unfold getTypeBases.
  assert (Hl : ∃ l, bases_loop (S (size (typetree tl))) (typetree tl)
                      (typetree tl !! name) [name] = Some l).
  { destruct (typetree tl !! name) as [p|] eqn:Hn; [|simpl; eauto].
    apply (bases_loop_total (typetree tl) rk).
    - intros c q Hc. apply (Ht c q Hc).
    - rewrite <- (size_dom (D := gset string)).
      apply Nat.lt_succ_r, subseteq_size. intros x Hx.
      apply elem_of_filter in Hx as [_ Hx]. exact Hx. }
  destruct Hl as [l Hl]. rewrite Hl. simpl. eexists. split; [reflexivity|].
  apply elem_of_reverse. eapply bases_loop_keeps; [exact Hl|]. set_solver.
Qed.

(** ** Registries that calls can produce *)

Lemma isSubType_state tl name base r tl' :
  isSubType tl name base = Some (r, tl') →
  types tl' = types tl ∧ typetree tl' = typetree tl
  ∧ (subscache tl' = subscache tl
     ∨ ∃ bases, getTypeBases tl name = Some bases
                ∧ subscache tl' = <[(name, base) := bool_decide (base ∈ bases)]> (subscache tl)).
Proof.
  unfold isSubType. destruct (subscache tl !! (name, base)) as [ret|].
  - intros [= <- <-]. auto.
  - destruct (getTypeBases tl name) as [bases|]; simpl; [|discriminate].
    intros [= <- <-]. simpl. eauto 6.
Qed.

Lemma getTypeBases_self tl name bases :
  getTypeBases tl name = Some bases → name ∈ bases.
Proof.
  unfold getTypeBases.
  destruct (bases_loop _ _ _ _) as [l|] eqn:Hl; simpl; [|discriminate].
  intros [= <-]. apply elem_of_reverse. eapply bases_loop_keeps; [exact Hl|]. set_solver.
Qed.

Lemma reachable_inv H tl :
  reachable H tl →
  (∃ rk b, tree_ranked tl rk ∧ ranks_below tl rk b) ∧ cache_reflexive tl.
Proof.
  induction 1 as [|tl name info r tl' _ [(rk & b & Ht & Hb) Hc] Hadd
                  |tl name base r tl' _ [(rk & b & Ht & Hb) Hc] Hsub].
  - split.
    + exists (fun _ => 0%nat), 0%nat. split.
      * intros c p Hcp. simpl in Hcp. rewrite lookup_empty in Hcp. discriminate.
      * intros n [i Hn]. simpl in Hn. rewrite lookup_empty in Hn. discriminate.
    + intros n v Hv. simpl in Hv. rewrite lookup_empty in Hv. discriminate.
  - pose proof (addType_Reg H tl name info r tl' Hadd) as Hreg. split.
    + destruct (Reg_ranked tl tl' Hreg rk b Ht Hb) as (rk' & b' & Ht' & Hb' & _). eauto.
    + intros n v Hv. destruct (Reg_cache tl tl' Hreg) as [[_ Hs]|Hs]; rewrite Hs in Hv.
      * eapply Hc, Hv.
      * rewrite lookup_empty in Hv. discriminate.
  - destruct (isSubType_state tl name base r tl' Hsub) as (Hty & Htt & Hca). split.
    + exists rk, b. split.
      * intros c p Hcp. rewrite Htt in Hcp. rewrite Hty. apply (Ht c p Hcp).
      * intros n Hn. rewrite Hty in Hn. apply Hb, Hn.
    + intros n v Hv. destruct Hca as [Hs|(bases & Hg & Hs)]; rewrite Hs in Hv.
      * eapply Hc, Hv.
      * destruct (decide ((name, base) = (n, n))) as [[= -> ->]|Hne].
        -- rewrite lookup_insert_eq in Hv. injection Hv as <-.
           apply bool_decide_eq_true_2. eapply getTypeBases_self, Hg.
        -- rewrite lookup_insert_ne in Hv by exact Hne. eapply Hc, Hv.
Qed.

(** C10.  In every registry that calls can produce and for every name,
    registered or not: [getTypeBases] returns a list that holds the name, for
    an unregistered name exactly the one-element list; [isSubType(name, name)]
    returns [True]; and [isSubType] returns for every pair of names. *)
Theorem C10_bases_contain_the_name :
  ∀ H tl name,
    reachable H tl →
    (∃ bases, getTypeBases tl name = Some bases ∧ name ∈ bases)
    ∧ (types tl !! name = None → getTypeBases tl name = Some [name])
    ∧ (∃ tl', isSubType tl name name = Some (true, tl'))
    ∧ (∀ base, ∃ r tl', isSubType tl name base = Some (r, tl')).
Proof.
  intros H tl name Hr.
  destruct (reachable_inv H tl Hr) as [(rk & b & Ht & Hb) Hc].
  destruct (getTypeBases_ranked tl rk name Ht) as (bases & Hg & Hin).
  split; [eauto|]. split; [|split].
  - intros Hnone. unfold getTypeBases.
    destruct (typetree tl !! name) as [p|] eqn:Hp.
    + destruct (Ht name p Hp) as ([i Hi] & _). congruence.
    + reflexivity.
  - unfold isSubType. destruct (subscache tl !! (name, name)) as [v|] eqn:Hv.
    + rewrite (Hc name v Hv). eauto.
    + rewrite Hg. simpl. rewrite bool_decide_eq_true_2 by exact Hin. eauto.
  - intros base. unfold isSubType. destruct (subscache tl !! (name, base)) as [v|]; [eauto|].
    rewrite Hg. simpl. eauto.
Qed.

Lemma C10_witness :
  ∃ bases, getTypeBases empty_lib "no:such:type" = Some bases ∧ "no:such:type" ∈ bases.
Proof.
  exact (proj1 (C10_bases_contain_the_name example_host empty_lib "no:such:type"
                  (reach_empty example_host))).
Defined.

Example bases_of_builtin :
  (tl ← TypeLib_init example_host;
   Ok (getTypeBases tl "int:min", getTypeBases tl "zzz", fst <$> isSubType tl "int:min" "int",
       fst <$> isSubType tl "zzz" "zzz"))
  = Ok (Some ["int"; "int:min"], Some ["zzz"], Some true, Some true).
Proof. vm_compute. reflexivity. Qed.

(** ** Deferred definitions are retried when their parent arrives *)

Section deferred.
Context (H : Host).








Section one_definition.
Context (k : string) (d : string * info_t) (Hsub : dget d.2 "subof" = VStr k).



End one_definition.
End deferred.



(** Child and grandchild registered before the parent: both calls return
    [False]; registering the parent then leaves all three in [types], with
    nothing pending. *)
Example deferred_cascade :
  match addType example_host empty_lib "a:child" (mkinfo [("subof", VStr "a")]) with
  | Some (r1, tl1) =>
      match addType example_host tl1 "a:child:leaf" (mkinfo [("subof", VStr "a:child")]) with
      | Some (r2, tl2) =>
          match addType example_host tl2 "a" (mkinfo [("ctor", VStr "synapse.lib.types.StrType")]) with
          | Some (r3, tl3) =>
              Some (r1, r2, isDataType tl2 "a:child", r3,
                    isDataType tl3 "a", isDataType tl3 "a:child", isDataType tl3 "a:child:leaf",
                    getTypeBases tl3 "a:child:leaf", pended_count tl3)
          | None => None
          end
      | None => None
      end
  | None => None
  end
  = Some (Returned false, Returned false, false, Returned true, true, true, true,
          Some ["a"; "a:child"; "a:child:leaf"], 0%nat).
Proof. vm_compute. reflexivity. Qed.

(** ** Text lemmas for the round trip *)

Lemma lower_char_idem c : Str.lower_char (Str.lower_char c) = Str.lower_char c.
Proof. destruct c as [[] [] [] [] [] [] [] []]; reflexivity. Qed.

Lemma lower_idem s : Str.lower (Str.lower s) = Str.lower s.
Proof.
  induction s as [|c s IH]; simpl; [reflexivity|]. rewrite lower_char_idem, IH. reflexivity.
Qed.













(** ** [int(text, 0)] reads back what ['%d'] writes *)







(** ** Normalizing a representation *)

(** *** StrType *)




(** *** IntType *)


(** *** BoolType *)


(** *** GuidType *)





(** *** TagType *)






(** *** JsonType and TimeType: the library round trips *)



(** ** The round trip through the registry *)






(** The same on the registry of [TypeLib.__init__], run with the example
    host: [None] is accepted, and its representation is refused. *)
Example time_none_demo :
  (tl ← TypeLib_init example_host;
   '(n, _) ← getTypeNorm example_host tl (VStr "time") VNone VNone;
   Ok (n, getTypeRepr example_host tl (VStr "time") n))
  = Ok (VNone, Raise TypeError).
Proof. vm_compute. reflexivity. Qed.

(** ** The instances that [TypeLib.__init__] registers *)


Section plain.
Context (H : Host).

Lemma construct_info c name info item :
  construct H c name info = Ok item → i_info item = info ∧ i_cls item = c.
Proof.
  assert (Hd : ∀ c', DataType.init H c' name info = Ok item →
                     i_info item = info ∧ i_cls item = c').
  { intros c'. unfold DataType.init. destruct (reqStorDict H info); [|discriminate].
    intros [= <-]. auto. }
  destruct c; simpl; try apply Hd.
  - unfold StrType.init. destruct (DataType.init H CStr name info) as [s0|] eqn:Hi;
      simpl; [|discriminate].
    destruct (match dget info "enums" with VNone | VStr _ => _ | _ => _ end); simpl;
      [|discriminate].
    destruct (StrType.check_pattern H (dget info "regex")); simpl; [|discriminate].
    destruct (StrType.check_pattern H (dget info "restrip")); simpl; [|discriminate].
    intros [= <-]. eapply Hd, Hi.
  - unfold CompType.init. destruct (DataType.init H CComp name info); simpl; [|discriminate].
    destruct (if truthy (dget info "fields") then _ else _); simpl; [|discriminate].
    destruct (if truthy (dget info "optfields") then _ else _); simpl; [|discriminate].
    intros [= <-]. auto.
  - unfold XrefType.init. destruct (DataType.init H CXref name info) as [s0|] eqn:Hi;
      simpl; [|discriminate].
    destruct (dget info "source") as [| | |sorc|]; try discriminate.
    + intros [= <-]. eapply Hd, Hi.
    + destruct (split_lit "," (-1) sorc) as [|a [|b [|? ?]]]; try discriminate.
      intros [= <-]. auto.
Qed.








End plain.



(** Round trips in the registry of [TypeLib.__init__]: a hexadecimal text
    for [int], a mixed-case property name, a boolean word, a tag with its
    interval. *)
Example round_trip_demo :
  let rt := fun (T : string) (v : pyval) =>
    '(n, _) ← getTypeNorm example_host default_lib (VStr T) v VNone;
    r ← getTypeRepr example_host default_lib (VStr T) n;
    '(n', _) ← getTypeNorm example_host default_lib (VStr T) r VNone;
    Ok (n, r, n') in
  rt "int" (VStr "0x10") = Ok (VInt 16, VStr "16", VInt 16)
  ∧ rt "syn:prop" (VStr "Foo:Bar") = Ok (VStr "foo:bar", VStr "foo:bar", VStr "foo:bar")
  ∧ rt "str:lwr" (VStr "  Abc ") = Ok (VStr "abc", VStr "abc", VStr "abc")
  ∧ rt "bool" (VStr "YES") = Ok (VInt 1, VStr "True", VInt 1)
  ∧ rt "syn:tag" (VStr "Foo.Bar@2017-2016") = Ok (VStr "foo.bar", VStr "foo.bar", VStr "foo.bar")
  ∧ rt "time" (VStr "2017") = Ok (VInt 2017, VStr "2017", VInt 2017).
Proof. vm_compute. repeat split; reflexivity. Qed.

(** * Further properties *)

(** ** The scalar types *)

(** X1.  [BoolType.norm] returns 0 or 1 with no sub-properties whenever it
    returns; it returns for every value that is not a text; and on a text
    the case of the letters does not matter. *)
Theorem bool_norm_zero_or_one :
  ∀ self v,
    (∀ n s, BoolType.norm self v = Ok (n, s) → (n = VInt 0 ∨ n = VInt 1) ∧ s = ∅)
    ∧ (isstr v = false → is_ok (BoolType.norm self v) = true)
    ∧ (∀ t, v = VStr t → BoolType.norm self (VStr (Str.lower t)) = BoolType.norm self v).
Proof.
  intros self v. split; [|split].
  - intros n s. unfold BoolType.norm. destruct v as [|b|z|x|l].
    + intros [= <- <-]. auto.
    + intros [= <- <-]. destruct b; auto.
    + intros [= <- <-]. simpl. destruct (z =? 0); auto.
    + destruct (bool_decide _); [intros [= <- <-]; auto|].
      destruct (bool_decide _); [intros [= <- <-]; auto | discriminate].
    + intros [= <- <-]. destruct l; auto.
  - destruct v; simpl; intros Hs; try reflexivity; discriminate.
  - intros t ->. unfold BoolType.norm. rewrite lower_idem. reflexivity.
Qed.




(** X3.  [TimeType.norm] with an old value: a text is parsed by
    [s_time.parse] first, then the smaller of the two instants is kept under
    [ismin], the larger under [ismax], the new one otherwise; an integer input
    is accumulated in the same way, and without an old value the parsed
    instant is returned as it is. *)
Theorem time_norm_accumulates :
  ∀ H self text t old,
    time_parse H text = Ok t →
    TimeType.norm H self (VStr text) (VInt old) = Ok (VInt (kept (i_info self) t old), ∅)
    ∧ TimeType.norm H self (VInt t) (VInt old) = Ok (VInt (kept (i_info self) t old), ∅)
    ∧ TimeType.norm H self (VStr text) VNone = Ok (VInt t, ∅).
Proof.
  intros H self text t old Hp.
  assert (Hacc : accumulate (i_info self) (VInt t) (VInt old)
                 = Ok (VInt (kept (i_info self) t old))).
  { unfold accumulate, kept. destruct (minmax_of (i_info self)) as [[]|]; simpl;
      [apply py_min_int | apply py_max_int | reflexivity]. }
  unfold TimeType.norm, TimeType._norm_str. rewrite Hp. simpl.
  rewrite Hacc, accumulate_no_oldval. simpl. auto.
Qed.

Lemma time_norm_accumulates_witness :
  TimeType.norm example_host (mkInst CTime "time:min" (mkinfo [("ismin", VInt 1)]))
                (VStr "2017") (VInt 2016)
  = Ok (VInt (kept (mkinfo [("ismin", VInt 1)]) 2017 2016), ∅).
Proof.
  refine (proj1 (time_norm_accumulates example_host
                   (mkInst CTime "time:min" (mkinfo [("ismin", VInt 1)]))
                   "2017" 2017 2016 _)).
  vm_compute. reflexivity.
Defined.





Lemma guid_go_shape n s :
  GuidType.guid_go n s = true →
  ∃ g tail, s = (g ++ tail)%string ∧ String.length g = n
            ∧ Str.forallb Str.is_hexlow g = true
            ∧ (tail = "" ∨ tail = String "010" EmptyString).
Proof.
  revert s. induction n as [|n IH]; intros [|c s]; cbn [GuidType.guid_go]; try discriminate.
  - intros _. exists "", "". auto.
  - destruct s; [|discriminate]. intros Hc. apply Ascii.eqb_eq in Hc. subst c.
    exists "", (String "010" EmptyString). auto.
  - intros Hg. apply andb_true_iff in Hg as [Hc Hg].
    destruct (IH s Hg) as (g & tail & -> & Hlen & Hhex & Htail).
    exists (String c g), tail. simpl. rewrite Hc, Hhex, Hlen. auto.
Qed.

(** X6.  A guid given literally (not [*], not an alias starting with [$])
    is normalized by lower-casing and dropping the hyphens; what is returned
    is 32 lower-case hexadecimal digits, after which the pattern lets at most
    one newline through, and there are no sub-properties. *)
Theorem guid_norm_literal :
  ∀ H self x n s,
    x ≠ "*" → String.prefix "$" x = false →
    GuidType.norm H self (VStr x) = Ok (n, s) →
    s = ∅
    ∧ n = VStr (Str.remove "-" (Str.lower x))
    ∧ ∃ g tail, n = VStr (g ++ tail) ∧ String.length g = 32%nat
                ∧ Str.forallb Str.is_hexlow g = true
                ∧ (tail = "" ∨ tail = String "010" EmptyString).
Proof.
  intros H self x n s Hstar Hdollar. unfold GuidType.norm.
  destruct x as [|c rest]; [discriminate|].
  destruct (String.eqb_spec (String c rest) "*") as [He|_]; [exfalso; exact (Hstar He)|].
  rewrite prefix_char in Hdollar. rewrite Ascii.eqb_sym, Hdollar. simpl.
  destruct (GuidType.isguid _) eqn:Hg; [|discriminate].
  intros [= <- <-]. split; [reflexivity|]. split; [reflexivity|].
  destruct (guid_go_shape _ _ Hg) as (g & tail & Heq & Hrest).
  exists g, tail. rewrite <- Heq. auto.
Qed.

Lemma guid_norm_literal_witness :
  (∅ : subs) = ∅
  ∧ VStr "0123456789abcdef0123456789abcdef"
    = VStr (Str.remove "-" (Str.lower "01234567-89AB-CDEF-0123-456789ABCDEF"))
  ∧ ∃ g tail, VStr "0123456789abcdef0123456789abcdef" = VStr (g ++ tail)
              ∧ String.length g = 32%nat
              ∧ Str.forallb Str.is_hexlow g = true
              ∧ (tail = "" ∨ tail = String "010" EmptyString).
Proof.
  refine (guid_norm_literal example_host (mkInst CGuid "guid" ∅)
            "01234567-89AB-CDEF-0123-456789ABCDEF"
            (VStr "0123456789abcdef0123456789abcdef") ∅ _ _ _).
  - discriminate.
  - reflexivity.
  - vm_compute. reflexivity.
Defined.

(** ** The registry, step by step *)

Section activity.
Context (H : Host).

Lemma bump_loop_Act add tl nm tl' :
  (∀ a n i r b, add a n i = Some (r, b) → Act H a b) →
  bump_loop add tl nm = Some tl' → Act H (set_pended (delete (KStr nm)) tl) tl'.
Proof.
  intros Hadd Hb. unfold bump_loop in Hb.
  eapply (bump_fold_ind add (Act H (set_pended (delete (KStr nm)) tl))); [| |exact Hb].
  - intros a n i r b Ha Hab. eapply Act_trans; [exact Ha|]. eapply Hadd, Hab.
  - apply Act_refl.
Qed.

Lemma hkey_of_text v s : hkey_of v = Some (KStr s) → v = VStr s.
Proof. destruct v as [|b|z|x|l]; simpl; try discriminate. intros [= ->]. reflexivity. Qed.

Lemma by_subof_Act bump name info tl0 tl r tl' :
  (∀ a nm b, bump a nm = Some b → Act H (set_pended (delete (KStr nm)) a) b) →
  types tl !! name = None →
  Act H tl0 tl →
  by_subof H bump name info tl (dget info "subof") = Some (r, tl') → Act H tl0 tl'.
Proof.
  intros Hbump Hnew Hact. unfold by_subof.
  assert (Hpend : ∀ k, hkey_of (dget info "subof") = Some k →
                       (∀ s, k = KStr s → types tl !! s = None) →
                       Act H tl0 (pend k name info (set_typeinfo (delete name) tl))).
  { intros k Hk Hs. eapply Act_trans; [exact Hact|].
    eapply Act_trans; [apply Act_info_del, Hnew|].
    apply Act_pend; [exact Hnew | exact Hk | exact Hs]. }
  destruct (hkey_of (dget info "subof")) as [[| |s]|] eqn:Hk; intros Hb.
  - injection Hb as <- <-. apply Hpend; [reflexivity | discriminate].
  - injection Hb as <- <-. apply Hpend; [reflexivity | discriminate].
  - destruct (types tl !! s) as [base|] eqn:Hs.
    + destruct (extend H base name info) as [item|e] eqn:He.
      * destruct (bump _ name) as [tl3|] eqn:Hb3; simpl in Hb; [|discriminate].
        injection Hb as <- <-.
        eapply Act_trans; [exact Hact|].
        eapply Act_trans; [apply (Act_info_set H tl name info), Hnew|].
        eapply (Act_sub H _ name info s base item tl3); simpl;
          [exact Hnew | apply lookup_insert_eq | eapply hkey_of_text, Hk
          | exact Hs | exact He |].
        eapply Hbump, Hb3.
      * injection Hb as <- <-. eapply Act_trans; [exact Hact | apply Act_info_set, Hnew].
    + injection Hb as <- <-. apply Hpend; [reflexivity|]. intros s' [= <-]. exact Hs.
  - injection Hb as <- <-. exact Hact.
Qed.

Lemma addType_body_Act bump tl name info r tl' :
  (∀ a nm b, bump a nm = Some b → Act H (set_pended (delete (KStr nm)) a) b) →
  addType_body H bump tl name info = Some (r, tl') → Act H tl tl'.
Proof.
  intros Hbump. unfold addType_body.
  destruct (types tl !! name) as [old|] eqn:Hnew.
  { intros [= <- <-]. apply Act_refl. }
  destruct (is_none (dget info "ctor") && is_none (dget info "subof")).
  { intros [= <- <-]. apply Act_refl. }
  destruct (is_none (dget info "ctor")).
  { apply by_subof_Act; [exact Hbump | exact Hnew | apply Act_refl]. }
  destruct (tryDynFunc H (dget info "ctor") name info) as [item|e] eqn:Hc.
  - destruct (bump _ name) as [tl3|] eqn:Hb3; simpl; [|discriminate].
    intros [= <- <-].
    eapply Act_trans; [apply (Act_info_set H tl name info), Hnew|].
    eapply (Act_ctor H _ name info item tl3); simpl;
      [exact Hnew | apply lookup_insert_eq | exact Hc |].
    eapply Hbump, Hb3.
  - apply by_subof_Act; [exact Hbump | exact Hnew |].
    eapply Act_trans; [apply (Act_info_set H tl name info), Hnew|].
    apply Act_info_del. exact Hnew.
Qed.

(** Every [addType] call, however it ends, is made of these steps. *)
Lemma addType_f_Act fuel tl name info r tl' :
  addType_f H fuel tl name info = Some (r, tl') → Act H tl tl'.
Proof.
  revert tl name info r tl'. induction fuel as [|fuel IH]; intros tl name info r tl';
    simpl; [discriminate|].
  apply addType_body_Act. intros a nm b. apply bump_loop_Act. exact IH.
Qed.

Lemma Act_Reg tl tl' : Act H tl tl' → Reg tl tl'.
Proof.
  induction 1 as [tl|a b c _ IH1 _ IH2|tl name info _|tl name _|tl k name info _ _ _
                 |tl name info item tl3 Hnew _ Hc _ IH
                 |tl name info s base item tl3 Hnew _ _ Hs He _ IH].
  - apply Reg_refl.
  - eapply Reg_trans; eassumption.
  - apply Reg_info.
  - apply Reg_info.
  - apply Reg_pend.
  - eapply Reg_trans; [apply (Reg_new tl name item Hnew); eapply tryDynFunc_name, Hc|].
    eapply Reg_trans; [apply (Reg_pend (delete (KStr name)))|]. exact IH.
  - eapply (Reg_edge tl name s base item tl3 Hnew Hs); [eapply extend_name, He|].
    eapply Reg_trans; [apply (Reg_pend (delete (KStr name)))|]. exact IH.
Qed.
End activity.

(** *** What a call of [addType] promises *)

Lemma by_subof_outcome H bump name info tl r tl' :
  (∀ a nm b, bump a nm = Some b → Reg a b) →
  types tl !! name = None →
  by_subof H bump name info tl (dget info "subof") = Some (r, tl') →
  match r with
  | Returned true => ∃ item, types tl' !! name = Some item ∧ i_name item = name
  | Returned false =>
      types tl' = types tl
      ∧ ∃ k, hkey_of (dget info "subof") = Some k
             ∧ (name, info) ∈ default [] (pended tl' !! k)
  | Raised e => types tl' = types tl ∧ pended tl' = pended tl ∧ typetree tl' = typetree tl
  end.
Proof.
  intros Hbump Hnew. unfold by_subof.
  assert (Hpend : ∀ k, (name, info)
                       ∈ default [] (pended (pend k name info (set_typeinfo (delete name) tl)) !! k)).
  { intros k. unfold pend. simpl. rewrite lookup_insert_eq. simpl.
    apply elem_of_app. right. apply list_elem_of_singleton. reflexivity. }
  destruct (hkey_of (dget info "subof")) as [[| |s]|] eqn:Hk.
  - intros [= <- <-]. split; [reflexivity|]. eauto.
  - intros [= <- <-]. split; [reflexivity|]. eauto.
  - destruct (types tl !! s) as [base|] eqn:Hs.
    + destruct (extend H base name info) as [item|e] eqn:He.
      * destruct (bump _ name) as [tl3|] eqn:Hb3; simpl; [|discriminate].
        intros [= <- <-]. exists item. split; [|eapply construct_name, He].
        simpl. eapply Reg_types_grow; [eapply Hbump, Hb3|]. simpl. apply lookup_insert_eq.
      * intros [= <- <-]. auto.
    + intros [= <- <-]. split; [reflexivity|]. eauto.
  - intros [= <- <-]. auto.
Qed.

(** X7.  What a call of [addType] promises.  Instances already registered
    stay registered as they are; a name that is registered makes the call
    raise [DupTypeName] and change nothing; [True] is returned exactly when
    the call has registered the name, with an instance that carries the name;
    after [False] the name is not registered and its definition waits in
    [pended] under the key of its [subof]; and a call that raises leaves
    [types], [pended] and [typetree] as they were. *)
Theorem addType_outcome_contract :
  ∀ H tl name info r tl',
    addType H tl name info = Some (r, tl') →
    (∀ n i, types tl !! n = Some i → types tl' !! n = Some i)
    ∧ (is_Some (types tl !! name) → r = Raised DupTypeName ∧ tl' = tl)
    ∧ (r = Returned true →
         types tl !! name = None
         ∧ ∃ item, types tl' !! name = Some item ∧ i_name item = name)
    ∧ (r = Returned false →
         types tl' !! name = None
         ∧ ∃ k, hkey_of (dget info "subof") = Some k
                ∧ (name, info) ∈ default [] (pended tl' !! k))
    ∧ (∀ e, r = Raised e →
         types tl' = types tl ∧ pended tl' = pended tl ∧ typetree tl' = typetree tl).
Proof.
  intros H tl name info r tl' Hadd.
  split; [apply Reg_types_grow; eapply addType_Reg, Hadd|].
  unfold addType in Hadd. simpl in Hadd. revert Hadd.
  set (bump := bump_loop (addType_f H (pended_count tl))).
  assert (Hbump : ∀ a nm b, bump a nm = Some b → Reg a b).
  { intros a nm b. apply bump_loop_Reg. intros ? ? ? ? ?. apply addType_f_Reg. }
  unfold addType_body.
  destruct (types tl !! name) as [old|] eqn:Hnew.
  { intros [= <- <-]. repeat split; try discriminate; auto. }
  assert (Hsub : ∀ tl1, types tl1 = types tl →
            pended tl1 = pended tl → typetree tl1 = typetree tl →
            by_subof H bump name info tl1 (dget info "subof") = Some (r, tl') →
            (is_Some (None : option Inst) → r = Raised DupTypeName ∧ tl' = tl)
            ∧ (r = Returned true →
                 (None : option Inst) = None
                 ∧ ∃ item, types tl' !! name = Some item ∧ i_name item = name)
            ∧ (r = Returned false →
                 types tl' !! name = None
                 ∧ ∃ k, hkey_of (dget info "subof") = Some k
                        ∧ (name, info) ∈ default [] (pended tl' !! k))
            ∧ (∀ e, r = Raised e →
                 types tl' = types tl ∧ pended tl' = pended tl ∧ typetree tl' = typetree tl)).
  { intros tl1 Hty Hpe Htt Hb.
    apply by_subof_outcome in Hb; [|exact Hbump | rewrite Hty; exact Hnew].
    split; [intros [? ?]; discriminate|].
    split; [intros ->; split; [reflexivity | exact Hb]|].
    split.
    - intros ->. destruct Hb as [Hty' Hk]. rewrite Hty', Hty. auto.
    - intros e ->. destruct Hb as (Hty' & Hpe' & Htt'). split; [|split]; congruence. }
  destruct (is_none (dget info "ctor") && is_none (dget info "subof")).
  { intros [= <- <-]. split; [intros [? ?]; discriminate|].
    repeat split; try discriminate; auto. }
  destruct (is_none (dget info "ctor")).
  { apply Hsub; reflexivity. }
  destruct (tryDynFunc H (dget info "ctor") name info) as [item|e] eqn:Hc.
  - destruct (bump _ name) as [tl3|] eqn:Hb3; simpl; [|discriminate].
    intros [= <- <-]. split; [intros [? ?]; discriminate|].
    split; [|split; [discriminate | discriminate]].
    intros _. split; [reflexivity|]. exists item. split; [|eapply tryDynFunc_name, Hc].
    eapply Reg_types_grow; [eapply Hbump, Hb3|]. simpl. apply lookup_insert_eq.
  - apply Hsub; reflexivity.
Qed.

Lemma addType_outcome_contract_witness :
  types (pend (KStr "a") "a:child" (mkinfo [("subof", VStr "a")])
              (set_typeinfo (delete "a:child") empty_lib)) !! "a:child" = None
  ∧ ∃ k, hkey_of (dget (mkinfo [("subof", VStr "a")]) "subof") = Some k
         ∧ ("a:child", mkinfo [("subof", VStr "a")])
           ∈ default [] (pended (pend (KStr "a") "a:child" (mkinfo [("subof", VStr "a")])
                                      (set_typeinfo (delete "a:child") empty_lib)) !! k).
Proof.
  refine (proj1 (proj2 (proj2 (proj2
           (addType_outcome_contract example_host empty_lib "a:child"
              (mkinfo [("subof", VStr "a")]) (Returned false) _ _)))) eq_refl).
  vm_compute. reflexivity.
Defined.

(** *** Invariants of the registries that the code can produce *)

Section act_invariants.
Context (H : Host).

Lemma Act_names a b : Act H a b → names_agree a → names_agree b.
Proof.
  induction 1 as [tl|a b c _ IH1 _ IH2|tl name info _|tl name _|tl k name info _ _ _
                 |tl name info item tl3 Hnew _ Hc _ IH
                 |tl name info s base item tl3 Hnew _ _ Hs He _ IH]; intros Hn; auto.
  - apply IH. intros n i. simpl. destruct (decide (n = name)) as [->|Hne].
    + rewrite lookup_insert_eq. intros [= <-]. eapply tryDynFunc_name, Hc.
    + rewrite lookup_insert_ne by congruence. apply Hn.
  - assert (H3 : names_agree tl3); [|exact H3].
    apply IH. intros n i. simpl. destruct (decide (n = name)) as [->|Hne].
    + rewrite lookup_insert_eq. intros [= <-]. eapply construct_name, He.
    + rewrite lookup_insert_ne by congruence. apply Hn.
Qed.

Lemma waits_after_pop tl name item :
  waits_for_absent tl →
  waits_for_absent (set_pended (delete (KStr name)) (set_types <[name := item]> tl)).
Proof.
  intros Hw k d. unfold pending_under. simpl.
  destruct (decide (k = name)) as [->|Hne].
  - rewrite lookup_delete_eq. simpl. intros Hd. apply elem_of_nil in Hd. contradiction.
  - rewrite lookup_delete_ne by congruence. intros Hd.
    destruct (Hw k d Hd) as [Hk Hsub]. rewrite lookup_insert_ne by congruence. auto.
Qed.

Lemma Act_waits a b : Act H a b → waits_for_absent a → waits_for_absent b.
Proof.
  induction 1 as [tl|a b c _ IH1 _ IH2|tl name info _|tl name _|tl k name info Hnew Hk Hs
                 |tl name info item tl3 Hnew _ Hc _ IH
                 |tl name info s base item tl3 Hnew _ _ Hs He _ IH]; intros Hw; auto.
  - intros k' d. unfold pending_under, pend. simpl.
    destruct (decide (k = KStr k')) as [->|Hne].
    + rewrite lookup_insert_eq. simpl. intros Hd. apply elem_of_app in Hd as [Hd|Hd].
      * apply (Hw k' d Hd).
      * apply list_elem_of_singleton in Hd. subst d. simpl.
        split; [apply Hs; reflexivity | eapply hkey_of_text, Hk].
    + rewrite lookup_insert_ne by exact Hne. apply Hw.
  - apply IH, waits_after_pop, Hw.
  - assert (H3 : waits_for_absent tl3); [|exact H3].
    apply IH, waits_after_pop, Hw.
Qed.

Lemma edges_after_pop tl name item :
  types tl !! name = None →
  edges_inherit tl →
  edges_inherit (set_pended (delete (KStr name)) (set_types <[name := item]> tl)).
Proof.
  intros Hnew He c p Hcp. simpl in Hcp.
  destruct (He c p Hcp) as (ci & pi & info & Hc & Hp & Hrest).
  exists ci, pi, info. simpl. rewrite !lookup_insert_ne by congruence. auto.
Qed.

Lemma Act_edges a b : Act H a b → edges_inherit a → edges_inherit b.
Proof.
  induction 1 as [tl|a b c _ IH1 _ IH2|tl name info _|tl name _|tl k name info _ _ _
                 |tl name info item tl3 Hnew _ Hc Hact IH
                 |tl name info s base item tl3 Hnew _ _ Hs He Hact IH]; intros Hi; auto.
  - apply IH, edges_after_pop; assumption.
  - pose proof (IH (edges_after_pop tl name item Hnew Hi)) as H3.
    pose proof (Reg_types_grow _ _ (Act_Reg H _ _ Hact)) as Hgrow. simpl in Hgrow.
    intros c p. simpl. destruct (decide (c = name)) as [->|Hne].
    + rewrite lookup_insert_eq. intros [= <-].
      exists item, base, info. split; [apply Hgrow, lookup_insert_eq|].
      split; [apply Hgrow; rewrite lookup_insert_ne by congruence; exact Hs|].
      unfold extend in He. apply construct_info in He as [Hinfo Hcls]. auto.
    + rewrite lookup_insert_ne by congruence. apply H3.
Qed.
End act_invariants.

Lemma getTypeBases_tree a b n :
  typetree a = typetree b → getTypeBases a n = getTypeBases b n.
Proof. unfold getTypeBases. intros ->. reflexivity. Qed.

Lemma isSubType_pended tl name base r tl' :
  isSubType tl name base = Some (r, tl') → pended tl' = pended tl.
Proof.
  unfold isSubType. destruct (subscache tl !! (name, base)); [intros [= <- <-]; reflexivity|].
  destruct (getTypeBases tl name); simpl; [|discriminate]. intros [= <- <-]. reflexivity.
Qed.

Lemma reachable_invariants H tl :
  reachable H tl →
  names_agree tl ∧ waits_for_absent tl ∧ edges_inherit tl ∧ cache_sound tl.
Proof.
  induction 1 as [|tl name info r tl' _ (Hn & Hw & He & Hc) Hadd
                  |tl name base r tl' _ (Hn & Hw & He & Hc) Hsub].
  - split; [|split; [|split]].
    + intros n i Hi. simpl in Hi. rewrite lookup_empty in Hi. discriminate.
    + intros k d Hd. unfold pending_under in Hd. simpl in Hd. rewrite lookup_empty in Hd.
      apply elem_of_nil in Hd. contradiction.
    + intros c p Hcp. simpl in Hcp. rewrite lookup_empty in Hcp. discriminate.
    + intros n b v Hv. simpl in Hv. rewrite lookup_empty in Hv. discriminate.
  - pose proof (addType_f_Act H _ _ _ _ _ _ Hadd) as Hact.
    split; [eapply Act_names; eassumption|].
    split; [eapply Act_waits; eassumption|].
    split; [eapply Act_edges; eassumption|].
    intros n b v Hv.
    destruct (Reg_cache tl tl' (Act_Reg H _ _ Hact)) as [[Htt Hs]|Hs]; rewrite Hs in Hv.
    + rewrite (getTypeBases_tree tl' tl n Htt). eapply Hc, Hv.
    + rewrite lookup_empty in Hv. discriminate.
  - destruct (isSubType_state tl name base r tl' Hsub) as (Hty & Htt & Hca).
    pose proof (isSubType_pended tl name base r tl' Hsub) as Hpe.
    split; [intros n i; rewrite Hty; apply Hn|].
    split.
    { intros k d. unfold pending_under. rewrite Hpe, Hty. apply Hw. }
    split.
    { intros c p. rewrite Htt, Hty. apply He. }
    intros n b v Hv. rewrite (getTypeBases_tree tl' tl n Htt).
    destruct Hca as [Hs|(bases & Hg & Hs)]; rewrite Hs in Hv.
    + eapply Hc, Hv.
    + destruct (decide ((name, base) = (n, b))) as [[= -> ->]|Hne].
      * rewrite lookup_insert_eq in Hv. injection Hv as <-. eauto.
      * rewrite lookup_insert_ne in Hv by exact Hne. eapply Hc, Hv.
Qed.

(** The registry of [TypeLib.__init__] is one of them. *)
Lemma addTypes_reachable H defs :
  ∀ tl tl', reachable H tl → addTypes H tl defs = Ok tl' → reachable H tl'.
Proof.
  induction defs as [|d defs IH]; intros tl tl' Hr; simpl.
  - intros [= <-]. exact Hr.
  - destruct (addType H tl d.1 d.2) as [[[b|e] tl1]|] eqn:Ha; try discriminate.
    apply IH. eapply reach_addType; eassumption.
Qed.

Lemma init_reachable H tl : TypeLib_init H = Ok tl → reachable H tl.
Proof. apply addTypes_reachable, reach_empty. Qed.



(** X9.  In every registry the code can produce, a definition that waits
    in [pended] is filed under its own [subof], and that parent is not
    registered: no definition is left waiting for a type that has arrived. *)
Theorem pending_definitions_wait_for_absent_parents :
  ∀ H tl k d,
    reachable H tl → pending_under tl k d →
    types tl !! k = None ∧ dget d.2 "subof" = VStr k.
Proof.
  intros H tl k d Hr Hd.
  destruct (reachable_invariants H tl Hr) as (_ & Hw & _ & _). apply Hw, Hd.
Qed.

Lemma pending_definitions_wait_for_absent_parents_witness :
  types (pend (KStr "a") "a:child" (mkinfo [("subof", VStr "a")])
              (set_typeinfo (delete "a:child") empty_lib)) !! "a" = None
  ∧ dget ("a:child", mkinfo [("subof", VStr "a")]).2 "subof" = VStr "a".
Proof.
  refine (pending_definitions_wait_for_absent_parents example_host _ "a"
            ("a:child", mkinfo [("subof", VStr "a")]) _ _).
  - refine (reach_addType example_host empty_lib "a:child" (mkinfo [("subof", VStr "a")])
              (Returned false) _ (reach_empty example_host) _).
    vm_compute. reflexivity.
  - vm_compute. apply list_elem_of_singleton. reflexivity.
Defined.

Lemma isSubType_by_bases H tl name base r tl' :
  reachable H tl → isSubType tl name base = Some (r, tl') →
  ∃ bases, getTypeBases tl name = Some bases ∧ r = bool_decide (base ∈ bases).
Proof.
  intros Hr. destruct (reachable_invariants H tl Hr) as (_ & _ & _ & Hc).
  unfold isSubType. destruct (subscache tl !! (name, base)) as [v|] eqn:Hv.
  - intros [= <- <-]. eapply Hc, Hv.
  - destruct (getTypeBases tl name) as [bases|]; simpl; [|discriminate].
    intros [= <- <-]. eauto.
Qed.

(** X10.  In every registry the code can produce, [isSubType(name, base)]
    answers whether [base] is among [getTypeBases(name)], whether the answer
    comes from the cache or not: a cached answer is never stale.  The call
    changes nothing but the cache, and asking again gives the same answer and
    changes nothing at all. *)
Theorem isSubType_answers_by_bases :
  ∀ H tl name base r tl',
    reachable H tl → isSubType tl name base = Some (r, tl') →
    (∃ bases, getTypeBases tl name = Some bases ∧ r = bool_decide (base ∈ bases))
    ∧ types tl' = types tl ∧ typeinfo tl' = typeinfo tl
    ∧ typetree tl' = typetree tl ∧ pended tl' = pended tl
    ∧ isSubType tl' name base = Some (r, tl').
Proof.
  intros H tl name base r tl' Hr Hs.
  split; [eapply isSubType_by_bases; eassumption|].
  revert Hs. unfold isSubType.
  destruct (subscache tl !! (name, base)) as [v|] eqn:Hv.
  - intros [= <- <-]. rewrite Hv. auto.
  - destruct (getTypeBases tl name) as [bases|]; simpl; [|discriminate].
    intros [= <- <-]. simpl. rewrite lookup_insert_eq. auto.
Qed.

Lemma isSubType_answers_by_bases_witness :
  ∃ bases, getTypeBases default_lib "int:min" = Some bases
           ∧ true = bool_decide ("int" ∈ bases).
Proof.
  refine (proj1 (isSubType_answers_by_bases example_host default_lib "int:min" "int" true
                   (set_subscache <[("int:min", "int") := true]> default_lib) _ _)).
  - apply init_reachable. vm_compute. reflexivity.
  - vm_compute. reflexivity.
Defined.

(** *** The chain of parents *)

Lemma bases_loop_chain fuel tt todo done l :
  bases_loop fuel tt todo done = Some l →
  ∃ rest, l = (done ++ rest)%list ∧ up_chain tt todo rest ∧ (length rest ≤ fuel)%nat.
Proof.
  revert todo done. induction fuel as [|fuel IH]; intros [t|] done; simpl; try discriminate.
  - intros [= <-]. exists []. rewrite app_nil_r. simpl. auto.
  - intros Hl. destruct (IH _ _ Hl) as (rest & -> & Hc & Hlen).
    exists (t :: rest). rewrite <- app_assoc. simpl. split; [reflexivity|].
    split; [auto | lia].
  - intros [= <-]. exists []. rewrite app_nil_r. simpl. split; [reflexivity|]. split; [auto|lia].
Qed.

Lemma bases_loop_complete tt rest :
  ∀ fuel todo done,
    up_chain tt todo rest → (length rest ≤ fuel)%nat →
    bases_loop fuel tt todo done = Some (done ++ rest)%list.
Proof.
  induction rest as [|t rest IH]; intros fuel todo done; simpl.
  - intros -> _. rewrite app_nil_r. destruct fuel; reflexivity.
  - intros [-> Hc] Hlen. destruct fuel as [|fuel]; [lia|]. simpl.
    rewrite (IH fuel _ (done ++ [t])%list Hc ltac:(lia)), <- app_assoc. reflexivity.
Qed.

Lemma up_chain_det tt rest1 :
  ∀ todo rest2, up_chain tt todo rest1 → up_chain tt todo rest2 → rest1 = rest2.
Proof.
  induction rest1 as [|t rest1 IH]; intros todo [|u rest2]; simpl.
  - reflexivity.
  - intros -> [? _]. discriminate.
  - intros [-> _] ?. discriminate.
  - intros [-> H1] [[= <-] H2]. f_equal. eapply IH; eassumption.
Qed.

Lemma up_chain_from tt b rest :
  ∀ todo, up_chain tt todo rest → b ∈ rest →
    ∃ pre post, rest = (pre ++ b :: post)%list ∧ up_chain tt (tt !! b) post.
Proof.
  induction rest as [|t rest IH]; intros todo; simpl.
  - intros _ Hb. apply elem_of_nil in Hb. contradiction.
  - intros [-> Hc] Hb. apply elem_of_cons in Hb as [->|Hb].
    + exists [], rest. auto.
    + destruct (IH _ Hc Hb) as (pre & post & -> & Hp). exists (t :: pre), post. auto.
Qed.

(** What [getTypeBases] returns, as a chain. *)
Lemma getTypeBases_chain tl name bases :
  getTypeBases tl name = Some bases →
  ∃ rest, bases = (reverse rest ++ [name])%list
          ∧ up_chain (typetree tl) (typetree tl !! name) rest
          ∧ (length rest ≤ S (size (typetree tl)))%nat.
Proof.
  unfold getTypeBases.
  destruct (bases_loop _ _ _ _) as [l|] eqn:Hl; simpl; [|discriminate].
  intros [= <-]. destruct (bases_loop_chain _ _ _ _ _ Hl) as (rest & -> & Hc & Hlen).
  exists rest. simpl. rewrite reverse_cons. auto.
Qed.

Lemma getTypeBases_of_chain tl name rest :
  up_chain (typetree tl) (typetree tl !! name) rest →
  (length rest ≤ S (size (typetree tl)))%nat →
  getTypeBases tl name = Some (reverse rest ++ [name])%list.
Proof.
  intros Hc Hlen. unfold getTypeBases.
  rewrite (bases_loop_complete _ rest _ _ [name] Hc Hlen). simpl.
  rewrite reverse_cons. reflexivity.
Qed.

Lemma getTypeBases_parent tl name p bases :
  typetree tl !! name = Some p →
  getTypeBases tl name = Some bases →
  ∃ bp, getTypeBases tl p = Some bp ∧ bases = (bp ++ [name])%list.
Proof.
  intros Hp Hg.
  destruct (getTypeBases_chain tl name bases Hg) as (rest & -> & Hc & Hlen).
  rewrite Hp in Hc.
  destruct rest as [|t rest]; simpl in Hc; [discriminate|].
  destruct Hc as [[= <-] Hc]. simpl in Hlen.
  exists (reverse rest ++ [p])%list. split.
  - apply getTypeBases_of_chain; [exact Hc | lia].
  - rewrite reverse_cons. reflexivity.
Qed.

(** X11.  [getTypeBases] by recursion on the tree: for a name without a
    parent in [typetree] the list is the name alone, and for a name with a
    parent it is the list of the parent followed by the name - so the list
    begins with the root and ends with the name. *)
Theorem getTypeBases_extends_the_parent :
  ∀ tl name bases,
    getTypeBases tl name = Some bases →
    match typetree tl !! name with
    | None => bases = [name]
    | Some p => ∃ bp, getTypeBases tl p = Some bp ∧ bases = (bp ++ [name])%list
    end.
Proof.
  intros tl name bases Hg.
  destruct (typetree tl !! name) as [p|] eqn:Hp.
  - eapply getTypeBases_parent; eassumption.
  - destruct (getTypeBases_chain tl name bases Hg) as (rest & -> & Hc & _).
    rewrite Hp in Hc.
    destruct rest as [|t rest]; simpl in Hc; [reflexivity|].
    destruct Hc as [? _]. discriminate.
Qed.

Lemma getTypeBases_extends_the_parent_witness :
  match typetree default_lib !! "int:min" with
  | None => ["int"; "int:min"] = ["int:min"]
  | Some p => ∃ bp, getTypeBases default_lib p = Some bp
                    ∧ ["int"; "int:min"] = (bp ++ ["int:min"])%list
  end.
Proof.
  refine (getTypeBases_extends_the_parent default_lib "int:min" ["int"; "int:min"] _).
  vm_compute. reflexivity.
Defined.

Lemma chain_ranks (tt : gmap string string) (rk : string → nat) :
  (∀ c p, tt !! c = Some p → (rk p < rk c)%nat) →
  ∀ rest a, up_chain tt (tt !! a) rest → ∀ x, x ∈ rest → (rk x < rk a)%nat.
Proof.
  intros Hrk. induction rest as [|t rest IH]; intros a; simpl.
  - intros _ x Hx. apply elem_of_nil in Hx. contradiction.
  - intros [Ha Hc] x Hx. pose proof (Hrk a t Ha) as Hlt.
    apply elem_of_cons in Hx as [->|Hx]; [exact Hlt|].
    pose proof (IH t Hc x Hx). lia.
Qed.

Lemma bases_members tl a A b :
  getTypeBases tl a = Some A → b ∈ A →
  b = a ∨ ∃ rest, up_chain (typetree tl) (typetree tl !! a) rest ∧ b ∈ rest
                  ∧ A = (reverse rest ++ [a])%list.
Proof.
  intros Hg Hb. destruct (getTypeBases_chain tl a A Hg) as (rest & -> & Hc & _).
  apply elem_of_app in Hb as [Hb|Hb].
  - right. exists rest. rewrite elem_of_reverse in Hb.
    split; [exact Hc|]. split; [exact Hb | reflexivity].
  - left. apply list_elem_of_singleton in Hb. exact Hb.
Qed.

Lemma bases_trans tl a b c A B :
  getTypeBases tl a = Some A → getTypeBases tl b = Some B →
  b ∈ A → c ∈ B → c ∈ A.
Proof.
  intros Ha Hb HbA HcB.
  destruct (bases_members tl a A b Ha HbA) as [->|(ra & Hca & Hbra & ->)].
  { rewrite Ha in Hb. injection Hb as <-. exact HcB. }
  destruct (up_chain_from _ b ra _ Hca Hbra) as (pre & post & -> & Hpost).
  destruct (bases_members tl b B c Hb HcB) as [->|(rb & Hcb & Hcrb & _)].
  { apply elem_of_app. left. rewrite elem_of_reverse. exact Hbra. }
  rewrite (up_chain_det _ rb _ post Hcb Hpost) in Hcrb.
  apply elem_of_app. left. rewrite elem_of_reverse. apply elem_of_app. right.
  apply elem_of_cons. auto.
Qed.

(** X12.  In every registry the code can produce, the subtype test is an
    order on names: besides being reflexive it is transitive - a subtype of a
    subtype of [c] is a subtype of [c] - and two names that are subtypes of
    each other are the same name. *)
Theorem isSubType_is_an_order :
  ∀ H tl,
    reachable H tl →
    (∀ a b c ta tb r tc,
       isSubType tl a b = Some (true, ta) →
       isSubType tl b c = Some (true, tb) →
       isSubType tl a c = Some (r, tc) → r = true)
    ∧ (∀ a b ta tb,
         isSubType tl a b = Some (true, ta) →
         isSubType tl b a = Some (true, tb) → a = b).
Proof.
  intros H tl Hr. split.
  - intros a b c ta tb r tc Hab Hbc Hac.
    destruct (isSubType_by_bases H _ _ _ _ _ Hr Hab) as (A & HA & HbA).
    destruct (isSubType_by_bases H _ _ _ _ _ Hr Hbc) as (B & HB & HcB).
    destruct (isSubType_by_bases H _ _ _ _ _ Hr Hac) as (A' & HA' & ->).
    rewrite HA in HA'. injection HA' as <-.
    symmetry in HbA, HcB. apply bool_decide_eq_true in HbA, HcB.
    apply bool_decide_eq_true_2. eapply bases_trans; eassumption.
  - intros a b ta tb Hab Hba.
    destruct (isSubType_by_bases H _ _ _ _ _ Hr Hab) as (A & HA & HbA).
    destruct (isSubType_by_bases H _ _ _ _ _ Hr Hba) as (B & HB & HaB).
    symmetry in HbA, HaB. apply bool_decide_eq_true in HbA, HaB.
    destruct (proj1 (reachable_inv H tl Hr)) as (rk & bd & Ht & _).
    assert (Hrk : ∀ c p, typetree tl !! c = Some p → (rk p < rk c)%nat).
    { intros c p Hcp. apply (Ht c p Hcp). }
    destruct (bases_members tl a A b HA HbA) as [->|(ra & Hca & Hbra & _)]; [reflexivity|].
    destruct (bases_members tl b B a HB HaB) as [->|(rb & Hcb & Harb & _)]; [reflexivity|].
    pose proof (chain_ranks _ rk Hrk ra a Hca b Hbra).
    pose proof (chain_ranks _ rk Hrk rb b Hcb a Harb). lia.
Qed.

Lemma isSubType_is_an_order_witness :
  (∀ a b c ta tb r tc,
     isSubType default_lib a b = Some (true, ta) →
     isSubType default_lib b c = Some (true, tb) →
     isSubType default_lib a c = Some (r, tc) → r = true)
  ∧ (∀ a b ta tb,
       isSubType default_lib a b = Some (true, ta) →
       isSubType default_lib b a = Some (true, tb) → a = b).
Proof.
  refine (isSubType_is_an_order example_host default_lib _).
  apply init_reachable. vm_compute. reflexivity.
Defined.

(** X13.  Registering a subtype of a registered type, when the parent's
    class accepts the merged options: the call returns [True]; the name is
    registered with the instance the parent extended to; the edge to the
    parent is recorded and the subtype cache is empty; the bases of the name
    are those of the parent followed by the name; and the name tests as a
    subtype of the parent. *)
Theorem subof_registration_succeeds :
  ∀ H tl name info s base item,
    reachable H tl →
    types tl !! name = None →
    dget info "ctor" = VNone →
    dget info "subof" = VStr s →
    types tl !! s = Some base →
    extend H base name info = Ok item →
    ∃ tl', addType H tl name info = Some (Returned true, tl')
           ∧ types tl' !! name = Some item
           ∧ typetree tl' !! name = Some s
           ∧ subscache tl' = ∅
           ∧ (∃ bp, getTypeBases tl' s = Some bp
                    ∧ getTypeBases tl' name = Some (bp ++ [name])%list)
           ∧ ∃ tl'', isSubType tl' name s = Some (true, tl'').
Proof.
  intros H tl name info s base item Hr Hnew Hctor Hsub Hs He.
  destruct (bump_loop_total H (pended_count tl)
              (set_types <[name := item]> (set_typeinfo <[name := info]> tl)) name)
    as (tl3 & Hb & _).
  { intros a n i Hlt. apply addType_f_total. exact Hlt. }
  { unfold pended_count. simpl. lia. }
  set (tl' := set_subscache (fun _ => ∅) (set_typetree <[name := s]> tl3)).
  assert (Hadd : addType H tl name info = Some (Returned true, tl')).
  { unfold addType. simpl. unfold addType_body, by_subof.
    rewrite Hnew, Hctor, Hsub. simpl. rewrite Hs, He, Hb. reflexivity. }
  exists tl'. split; [exact Hadd|].
  assert (Hitem : types tl' !! name = Some item).
  { simpl. eapply Reg_types_grow.
    - eapply bump_loop_Reg; [|exact Hb]. intros ? ? ? ? ?. apply addType_f_Reg.
    - simpl. apply lookup_insert_eq. }
  assert (Hedge : typetree tl' !! name = Some s) by (simpl; apply lookup_insert_eq).
  split; [exact Hitem|]. split; [exact Hedge|]. split; [reflexivity|].
  pose proof (reach_addType H tl name info _ tl' Hr Hadd) as Hr'.
  destruct (proj1 (reachable_inv H tl' Hr')) as (rk & bd & Ht & _).
  destruct (getTypeBases_ranked tl' rk name Ht) as (bases & Hg & _).
  destruct (getTypeBases_parent tl' name s bases Hedge Hg) as (bp & Hbp & ->).
  split; [exists bp; auto|].
  unfold isSubType. change (subscache tl') with (∅ : gmap (string * string) bool).
  rewrite lookup_empty, Hg. simpl.
  rewrite bool_decide_eq_true_2; [eauto|].
  apply elem_of_app. left. eapply getTypeBases_self, Hbp.
Qed.

Lemma subof_registration_succeeds_witness :
  ∃ tl', addType example_host default_lib "foo:bar" (mkinfo [("subof", VStr "str:lwr")])
         = Some (Returned true, tl')
         ∧ types tl' !! "foo:bar"
           = Some (mkInst CStr "foo:bar"
                     (mkinfo [("subof", VStr "str:lwr")]
                      ∪ mkinfo [("subof", VStr "str"); ("lower", VInt 1); ("strip", VInt 1);
                                ("ctor", VStr "synapse.lib.types.StrType");
                                ("doc", VStr "The base string type")]))
         ∧ typetree tl' !! "foo:bar" = Some "str:lwr"
         ∧ subscache tl' = ∅
         ∧ (∃ bp, getTypeBases tl' "str:lwr" = Some bp
                  ∧ getTypeBases tl' "foo:bar" = Some (bp ++ ["foo:bar"])%list)
         ∧ ∃ tl'', isSubType tl' "foo:bar" "str:lwr" = Some (true, tl'').
Proof.
  refine (subof_registration_succeeds example_host default_lib "foo:bar"
            (mkinfo [("subof", VStr "str:lwr")]) "str:lwr"
            (mkInst CStr "str:lwr"
               (mkinfo [("subof", VStr "str"); ("lower", VInt 1); ("strip", VInt 1);
                        ("ctor", VStr "synapse.lib.types.StrType");
                        ("doc", VStr "The base string type")])) _ _ _ _ _ _ _).
  - apply init_reachable. vm_compute. reflexivity.
  - vm_compute. reflexivity.
  - vm_compute. reflexivity.
  - vm_compute. reflexivity.
  - vm_compute. reflexivity.
  - vm_compute. reflexivity.
Defined.

(** ** Loading models in bulk *)

Section bulk.
Context (H : Host).




End bulk.



(** The batch above at work: the definition without [ctor] and [subof]
    raises and is skipped, and both types end up registered. *)
Example loadDataModels_demo :
  (tl ← loadDataModels example_host empty_lib
          [("m", [("a:child", mkinfo [("subof", VStr "a")]);
                  ("bad", mkinfo []);
                  ("a", mkinfo [("ctor", VStr "synapse.lib.types.StrType")])])];
   Some (isDataType tl "a", isDataType tl "a:child", isDataType tl "bad", pended_count tl))
  = Some (true, true, false, 0%nat).
Proof. vm_compute. reflexivity. Qed.

(** ** Looking up an option along the definitions *)

(** X15.  [getTypeInfo] keeps no record of the names it has visited.  When
    the walk from [name] stays within definitions that leave [prop] unset and
    name one another by [subof] - a definition registered by a constructor
    that names itself as [subof] is enough - the loop never ends: no number of
    steps gives a result. *)
Theorem getTypeInfo_never_returns_on_a_cycle :
  ∀ (tl : TypeLib) (prop : string) (defval : pyval) (S : string → Prop) (name : string),
    (∀ a, S a →
       ∃ info b, typeinfo tl !! a = Some info ∧ dget info prop = VNone
                 ∧ dget info "subof" = VStr b ∧ S b) →
    S name →
    (∀ fuel, info_loop fuel (typeinfo tl) (VStr name) prop defval = None)
    ∧ getTypeInfo tl name prop defval = None.
Proof.
  intros tl prop defval S name Hcycle Hname.
  assert (Hloop : ∀ fuel a, S a → info_loop fuel (typeinfo tl) (VStr a) prop defval = None).
  { induction fuel as [|fuel IH]; intros a Ha; [reflexivity|].
    destruct (Hcycle a Ha) as (info & b & Hi & Hp & Hsub & Hb).
    simpl. rewrite Hi, Hp, Hsub. simpl. apply IH, Hb. }
  split; [intros fuel; apply Hloop, Hname | apply Hloop, Hname].
Qed.

Lemma getTypeInfo_never_returns_on_a_cycle_witness :
  ∃ tl, addType example_host empty_lib "a"
          (mkinfo [("ctor", VStr "synapse.lib.types.StrType"); ("subof", VStr "a")])
        = Some (Returned true, tl)
        ∧ (∀ fuel, info_loop fuel (typeinfo tl) (VStr "a") "doc" VNone = None)
        ∧ getTypeInfo tl "a" "doc" VNone = None.
Proof.
  eexists. split; [vm_compute; reflexivity|].
  refine (getTypeInfo_never_returns_on_a_cycle _ "doc" VNone (fun a => a = "a") "a" _ eq_refl).
  intros a ->. eexists _, "a". split; [vm_compute; reflexivity|].
  split; [vm_compute; reflexivity|]. split; [vm_compute; reflexivity | reflexivity].
Defined.

(** The option of the nearest definition wins, and a name without a
    definition gives the default. *)
Example getTypeInfo_demo :
  (getTypeInfo default_lib "str:txt" "doc" VNone,
   getTypeInfo default_lib "str:lwr" "doc" VNone,
   getTypeInfo default_lib "str:lwr" "ex" (VStr "none"),
   getTypeInfo default_lib "no:such" "doc" (VStr "none"))
  = (Some (Ok (VStr "Multi-line text or text blob.")),
     Some (Ok (VStr "The base string type")),
     Some (Ok (VStr "none")),
     Some (Ok (VStr "none"))).
Proof. vm_compute. reflexivity. Qed.

(** ** CompType: how the options are read *)

Lemma opts_lookup (kvs : list (string * pyval)) (name : string) :
  dget (list_to_map (reverse kvs)) name = opt_value kvs name.
Proof.
  unfold opt_value. induction kvs as [|[k v] kvs IH] using rev_ind; [reflexivity|].
  rewrite reverse_app, foldl_app. simpl. unfold dget in *.
  destruct (String.eqb_spec k name) as [->|Hne].
  - rewrite lookup_insert_eq. reflexivity.
  - rewrite lookup_insert_ne by exact Hne. exact IH.
Qed.

Lemma norm_opt_ext gtn (opts opts' : gmap string pyval) optfields :
  (∀ name tname, (name, tname) ∈ optfields → dget opts name = dget opts' name) →
  ∀ acc retn, CompType.norm_opt gtn opts optfields acc retn
              = CompType.norm_opt gtn opts' optfields acc retn.
Proof.
  induction optfields as [|[name tname] optfields IH]; intros Hsame acc retn; [reflexivity|].
  simpl. rewrite <- (Hsame name tname) by (apply elem_of_cons; auto).
  assert (IH' := IH (fun n t Hn => Hsame n t (proj2 (elem_of_cons _ _ _) (or_intror Hn)))).
  destruct (is_none (dget opts name)); [apply IH'|].
  destruct (gtn (VStr tname) (dget opts name)) as [[norm ssubs]|e]; simpl; [apply IH' | reflexivity].
Qed.

(** X16.  [CompType._norm_list] reads the optional pairs through a
    dictionary: the result depends on them only through the value given last
    for each declared option name.  So a pair whose key is not declared is
    ignored, a repeated key counts with its last value, and a value [None] -
    also one that follows an earlier value - counts as no value. *)
Theorem comp_options_are_read_by_name :
  ∀ H gtn self (req : list pyval) (kvs kvs' : list (string * pyval)),
    length req = length (i_fields self) →
    (∀ name tname, (name, tname) ∈ i_optfields self → opt_value kvs name = opt_value kvs' name) →
    CompType._norm_list H gtn self (req ++ (pair_val <$> kvs))
    = CompType._norm_list H gtn self (req ++ (pair_val <$> kvs')).
Proof.
  intros H gtn self req kvs kvs' Hlen Hsame.
  rewrite !comp_norm_list_split by exact Hlen.
  destruct (CompType.norm_req gtn req (i_fields self) ∅ []) as [[acc retn]|e]; simpl;
    [|reflexivity].
  rewrite (norm_opt_ext gtn (list_to_map (reverse kvs)) (list_to_map (reverse kvs'))
             (i_optfields self)); [reflexivity|].
  intros name tname Hn. rewrite !opts_lookup. eapply Hsame, Hn.
Qed.

Lemma comp_options_are_read_by_name_witness :
  CompType._norm_list example_host demo_gtn demo_comp
    ([VStr "x"] ++ (pair_val <$> [("z", VStr "p"); ("b", VInt 5); ("q", VInt 1);
                                   ("z", VStr "q"); ("b", VNone)]))
  = CompType._norm_list example_host demo_gtn demo_comp
    ([VStr "x"] ++ (pair_val <$> [("z", VStr "q")])).
Proof.
  refine (comp_options_are_read_by_name example_host demo_gtn demo_comp [VStr "x"]
            [("z", VStr "p"); ("b", VInt 5); ("q", VInt 1); ("z", VStr "q"); ("b", VNone)]
            [("z", VStr "q")] _ _).
  - reflexivity.
  - intros name tname Hn. simpl in Hn.
    apply elem_of_cons in Hn as [[= -> ->]|Hn]; [reflexivity|].
    apply elem_of_cons in Hn as [[= -> ->]|Hn]; [reflexivity|].
    apply elem_of_nil in Hn. contradiction.
Defined.

(** ** MultiFieldType: one value for each field *)

Section fields.
Context (gti : string → option Inst) (inorm : Inst → pyval → res (pyval * subs)).

End fields.



(** The same instance that [SeprType.norm] lets a short list through
    rejects it here, and normalizes a list of the right length. *)
Example norm_fields_demo :
  MultiFieldType._norm_fields demo_gti demo_norm demo_sepr (VList [VStr "x"; VStr "y"])
  = Ok ([VStr "x"; VStr "y"], <["b" := VStr "y"]> (<["a" := VStr "x"]> ∅)).
Proof. vm_compute. reflexivity. Qed.

(** ** Bases: registered, of one class, and settled *)

Lemma chain_inherits tl :
  edges_inherit tl →
  ∀ rest a, up_chain (typetree tl) (typetree tl !! a) rest →
    ∀ x, x ∈ rest →
      ∃ xi ai, types tl !! x = Some xi ∧ types tl !! a = Some ai
               ∧ i_cls xi = i_cls ai
               ∧ ∀ key, is_Some (i_info xi !! key) → is_Some (i_info ai !! key).
Proof.
  intros He. induction rest as [|t rest IH]; intros a; simpl.
  - intros _ x Hx. apply elem_of_nil in Hx. contradiction.
  - intros [Ha Hc] x Hx.
    destruct (He a t Ha) as (ai & ti & info & Hai & Hti & Hcls & Hinfo).
    assert (Hopt : ∀ key, is_Some (i_info ti !! key) → is_Some (i_info ai !! key)).
    { intros key Hk. rewrite Hinfo. apply lookup_union_is_Some. auto. }
    apply elem_of_cons in Hx as [->|Hx].
    + exists ti, ai. auto.
    + destruct (IH t Hc x Hx) as (xi & ti' & Hxi & Hti' & Hcls' & Hopt').
      rewrite Hti in Hti'. injection Hti' as <-.
      exists xi, ai. split; [exact Hxi|]. split; [exact Hai|].
      split; [congruence | auto].
Qed.

(** X18.  In every registry the code can produce, a registered type is a
    subtype only of registered types of its own class, and every option the
    base instance has is set in the subtype's instance too (inherited or
    overridden): whatever [isSubType(name, base)] confirms for a registered
    [name] is backed by an instance of the same class. *)
Theorem bases_are_registered_and_of_one_class :
  ∀ H tl name base inst tl',
    reachable H tl →
    types tl !! name = Some inst →
    isSubType tl name base = Some (true, tl') →
    ∃ binst, types tl !! base = Some binst
             ∧ i_cls binst = i_cls inst
             ∧ ∀ key, is_Some (i_info binst !! key) → is_Some (i_info inst !! key).
Proof.
  intros H tl name base inst tl' Hr Hinst Hsub.
  destruct (isSubType_by_bases H _ _ _ _ _ Hr Hsub) as (A & HA & Hb).
  symmetry in Hb. apply bool_decide_eq_true in Hb.
  destruct (reachable_invariants H tl Hr) as (_ & _ & He & _).
  destruct (bases_members tl name A base HA Hb) as [->|(rest & Hc & Hbr & _)].
  - exists inst. auto.
  - destruct (chain_inherits tl He rest name Hc base Hbr) as (bi & ni & Hbi & Hni & Hcls & Hopt).
    rewrite Hinst in Hni. injection Hni as <-. eauto.
Qed.

Lemma bases_are_registered_and_of_one_class_witness :
  ∃ binst, types default_lib !! "str" = Some binst
           ∧ i_cls binst = i_cls (mkInst CStr "str:lwr"
                                    (mkinfo [("subof", VStr "str"); ("lower", VInt 1);
                                             ("strip", VInt 1);
                                             ("ctor", VStr "synapse.lib.types.StrType");
                                             ("doc", VStr "The base string type")]))
           ∧ ∀ key, is_Some (i_info binst !! key)
                    → is_Some (i_info (mkInst CStr "str:lwr"
                                         (mkinfo [("subof", VStr "str"); ("lower", VInt 1);
                                                  ("strip", VInt 1);
                                                  ("ctor", VStr "synapse.lib.types.StrType");
                                                  ("doc", VStr "The base string type")]))
                                 !! key).
Proof.
  refine (bases_are_registered_and_of_one_class example_host default_lib "str:lwr" "str" _
            (set_subscache <[("str:lwr", "str") := true]> default_lib) _ _ _).
  - apply init_reachable. vm_compute. reflexivity.
  - vm_compute. reflexivity.
  - vm_compute. reflexivity.
Defined.

Lemma Reg_tree_stable a b :
  Reg a b → ∀ n, is_Some (types a !! n) → typetree b !! n = typetree a !! n.
Proof.
  induction 1 as [tl|a b c Hab IH1 _ IH2|f tl|f tl|tl name item Hnew _
                 |tl name s base item tl3 Hnew Hs _ _ IH]; intros n Hn; simpl; auto.
  - rewrite IH2, IH1; [reflexivity | exact Hn|].
    destruct Hn as [i Hi]. exists i. eapply Reg_types_grow; eassumption.
  - assert (Hne : n ≠ name).
    { intros ->. rewrite Hnew in Hn. destruct Hn as [? ?]. discriminate. }
    rewrite lookup_insert_ne by congruence.
    rewrite IH; [reflexivity|]. simpl. rewrite lookup_insert_ne by congruence. exact Hn.
Qed.

Lemma chain_stable a (tt' : gmap string string) rk :
  tree_ranked a rk →
  (∀ n, is_Some (types a !! n) → tt' !! n = typetree a !! n) →
  ∀ rest n, is_Some (types a !! n) →
    up_chain (typetree a) (typetree a !! n) rest → up_chain tt' (tt' !! n) rest.
Proof.
  intros Ht Hst. induction rest as [|t rest IH]; intros n Hn; simpl.
  - intros Hnone. rewrite (Hst n Hn). exact Hnone.
  - intros [Hp Hc]. rewrite (Hst n Hn). split; [exact Hp|].
    apply IH; [|exact Hc]. apply (Ht n t Hp).
Qed.

(** X19.  The bases of a registered type are settled: a later [addType]
    call, however it ends and whatever it registers, changes neither the
    parent of a type that was registered before the call nor the list that
    [getTypeBases] returns for it. *)
Theorem bases_of_registered_types_are_settled :
  ∀ H tl name info r tl' n,
    reachable H tl →
    addType H tl name info = Some (r, tl') →
    is_Some (types tl !! n) →
    typetree tl' !! n = typetree tl !! n
    ∧ getTypeBases tl' n = getTypeBases tl n.
Proof.
  intros H tl name info r tl' n Hr Hadd Hn.
  pose proof (Reg_tree_stable tl tl' (addType_Reg H _ _ _ _ _ Hadd)) as Hst.
  split; [apply Hst, Hn|].
  destruct (proj1 (reachable_inv H tl Hr)) as (rk & bd & Ht & _).
  destruct (getTypeBases_ranked tl rk n Ht) as (bases & Hg & _).
  destruct (getTypeBases_chain tl n bases Hg) as (rest & -> & Hc & _).
  pose proof (chain_stable tl (typetree tl') rk Ht Hst rest n Hn Hc) as Hc'.
  pose proof (reach_addType H tl name info r tl' Hr Hadd) as Hr'.
  destruct (proj1 (reachable_inv H tl' Hr')) as (rk' & bd' & Ht' & _).
  destruct (getTypeBases_ranked tl' rk' n Ht') as (bases' & Hg' & _).
  destruct (getTypeBases_chain tl' n bases' Hg') as (rest' & -> & Hc'' & _).
  rewrite Hg, Hg'. rewrite (up_chain_det _ rest' _ rest Hc'' Hc'). reflexivity.
Qed.

Lemma bases_of_registered_types_are_settled_witness :
  ∃ tl', addType example_host default_lib "int:min:x" (mkinfo [("subof", VStr "int:min")])
         = Some (Returned true, tl')
         ∧ typetree tl' !! "int:min" = typetree default_lib !! "int:min"
         ∧ getTypeBases tl' "int:min" = getTypeBases default_lib "int:min".
Proof.
  eexists. split; [vm_compute; reflexivity|].
  refine (bases_of_registered_types_are_settled example_host default_lib "int:min:x"
            (mkinfo [("subof", VStr "int:min")]) (Returned true) _ "int:min" _ _ _).
  - apply init_reachable. vm_compute. reflexivity.
  - vm_compute. reflexivity.
  - vm_compute. eauto.
Defined.



(** ** Definitions and what [getTypeInfo] finds *)

Section definitions.
Context (H : Host).

Lemma tryDynFunc_info ctor name info item :
  tryDynFunc H ctor name info = Ok item → i_info item = info.
Proof.
  unfold tryDynFunc. destruct ctor; try discriminate.
  destruct (ctor_class s); [|discriminate]. intros Hc.
  apply (construct_info H) in Hc. apply Hc.
Qed.

Lemma Act_info_stable a b :
  Act H a b → ∀ n, is_Some (types a !! n) → typeinfo b !! n = typeinfo a !! n.
Proof.
  induction 1 as [tl|a b c Hab IH1 _ IH2|tl name info Hnew|tl name Hnew|tl k name info _ _ _
                 |tl name info item tl3 Hnew _ _ _ IH
                 |tl name info s base item tl3 Hnew _ _ _ _ _ IH]; intros n Hn; simpl; auto.
  - rewrite IH2, IH1; [reflexivity | exact Hn|].
    destruct Hn as [i Hi]. exists i.
    eapply Reg_types_grow; [eapply Act_Reg, Hab | exact Hi].
  - apply lookup_insert_ne. intros ->. rewrite Hnew in Hn. destruct Hn as [? ?]. discriminate.
  - apply lookup_delete_ne. intros ->. rewrite Hnew in Hn. destruct Hn as [? ?]. discriminate.
  - rewrite IH; [reflexivity|]. simpl.
    destruct Hn as [i Hi]. destruct (decide (n = name)) as [->|Hne].
    + rewrite lookup_insert_eq. eauto.
    + rewrite lookup_insert_ne by congruence. eauto.
  - rewrite IH; [reflexivity|]. simpl.
    destruct Hn as [i Hi]. destruct (decide (n = name)) as [->|Hne].
    + rewrite lookup_insert_eq. eauto.
    + rewrite lookup_insert_ne by congruence. eauto.
Qed.

Lemma defs_after_pop tl name info item :
  types tl !! name = None →
  typeinfo tl !! name = Some info →
  info ⊆ i_info item →
  defs_agree tl →
  defs_agree (set_pended (delete (KStr name)) (set_types <[name := item]> tl)).
Proof.
  intros Hnew Hinfo Hsub [Hd He]. split.
  - intros n i. simpl. destruct (decide (n = name)) as [->|Hne].
    + rewrite lookup_insert_eq. intros [= <-]. eauto.
    + rewrite lookup_insert_ne by congruence. apply Hd.
  - intros c p Hcp. simpl in Hcp. destruct (He c p Hcp) as [[i Hi] Hrest].
    split; [|exact Hrest]. simpl. rewrite lookup_insert_ne by congruence. eauto.
Qed.

Lemma defs_unregistered tl name (f : gmap string info_t → gmap string info_t) :
  types tl !! name = None →
  (∀ n, n ≠ name → f (typeinfo tl) !! n = typeinfo tl !! n) →
  defs_agree tl → defs_agree (set_typeinfo f tl).
Proof.
  intros Hnew Hf [Hd He]. split.
  - intros n i Hi. simpl in *. rewrite Hf by congruence. eapply Hd, Hi.
  - intros c p Hcp. simpl in *. destruct (He c p Hcp) as [[i Hi] Hrest].
    rewrite Hf by congruence. eauto.
Qed.

Lemma Act_defs a b : Act H a b → defs_agree a → defs_agree b.
Proof.
  induction 1 as [tl|a b c _ IH1 _ IH2|tl name info Hnew|tl name Hnew|tl k name info _ _ _
                 |tl name info item tl3 Hnew Hinfo Hc _ IH
                 |tl name info s base item tl3 Hnew Hinfo Hsub Hs He Hact IH]; intros Hd; auto.
  - apply defs_unregistered with (name := name); [exact Hnew | | exact Hd].
    intros n Hne. apply lookup_insert_ne. congruence.
  - apply defs_unregistered with (name := name); [exact Hnew | | exact Hd].
    intros n Hne. apply lookup_delete_ne. congruence.
  - apply IH, (defs_after_pop tl name info item); try assumption.
    rewrite (tryDynFunc_info _ _ _ _ Hc). reflexivity.
  - assert (Hitem : info ⊆ i_info item).
    { unfold extend in He. apply (construct_info H) in He as [-> _].
      apply map_union_subseteq_l. }
    destruct (IH (defs_after_pop tl name info item Hnew Hinfo Hitem Hd)) as [Hd3 He3].
    split; [exact Hd3|].
    assert (Hreg : is_Some (types (set_pended (delete (KStr name))
                                     (set_types <[name := item]> tl)) !! name)).
    { simpl. rewrite lookup_insert_eq. eauto. }
    intros c p. simpl. destruct (decide (c = name)) as [->|Hne].
    + rewrite lookup_insert_eq. intros [= <-]. split.
      * destruct Hreg as [i Hi]. exists i.
        eapply Reg_types_grow; [eapply Act_Reg, Hact | exact Hi].
      * exists info. split; [|exact Hsub].
        rewrite (Act_info_stable _ _ Hact name Hreg). simpl. exact Hinfo.
    + rewrite lookup_insert_ne by congruence. apply He3.
Qed.
End definitions.

Lemma isSubType_typeinfo tl name base r tl' :
  isSubType tl name base = Some (r, tl') → typeinfo tl' = typeinfo tl.
Proof.
  unfold isSubType. destruct (subscache tl !! (name, base)); [intros [= <- <-]; reflexivity|].
  destruct (getTypeBases tl name); simpl; [|discriminate]. intros [= <- <-]. reflexivity.
Qed.

Lemma reachable_defs H tl : reachable H tl → defs_agree tl.
Proof.
  induction 1 as [|tl name info r tl' _ IH Hadd|tl name base r tl' _ [Hd He] Hsub].
  - split.
    + intros n i Hi. simpl in Hi. rewrite lookup_empty in Hi. discriminate.
    + intros c p Hcp. simpl in Hcp. rewrite lookup_empty in Hcp. discriminate.
  - eapply Act_defs; [eapply addType_f_Act, Hadd | exact IH].
  - destruct (isSubType_state tl name base r tl' Hsub) as (Hty & Htt & _).
    pose proof (isSubType_typeinfo tl name base r tl' Hsub) as Hti.
    split.
    + intros n i. rewrite Hty, Hti. apply Hd.
    + intros c p. rewrite Htt, Hty, Hti. apply He.
Qed.

(** X21.  In every registry the code can produce, [typeinfo] holds the
    definition of each registered type, and the definition of a type with a
    parent names that parent as [subof].  So [getTypeInfo(c, prop)] for a
    subtype [c] of [p] returns the value the definition of [c] sets for
    [prop], and where it sets none, whatever the walk from [p] returns: docs
    and examples are inherited from the parent types. *)
Theorem getTypeInfo_inherits_from_the_parent :
  ∀ H tl c p prop defval,
    reachable H tl →
    typetree tl !! c = Some p →
    ∃ info, typeinfo tl !! c = Some info
            ∧ dget info "subof" = VStr p
            ∧ (is_none (dget info prop) = false →
                 getTypeInfo tl c prop defval = Some (Ok (dget info prop)))
            ∧ (is_none (dget info prop) = true →
                 ∀ fuel r,
                   info_loop fuel (typeinfo tl) (VStr p) prop defval = Some r →
                   info_loop (S fuel) (typeinfo tl) (VStr c) prop defval = Some r).
Proof.
  intros H tl c p prop defval Hr Hcp.
  destruct (reachable_defs H tl Hr) as [_ He].
  destruct (He c p Hcp) as [_ (info & Hinfo & Hsub)].
  exists info. split; [exact Hinfo|]. split; [exact Hsub|]. split.
  - intros Hset. unfold getTypeInfo. simpl. rewrite Hinfo, Hset. reflexivity.
  - intros Hunset fuel r Hp. simpl. rewrite Hinfo, Hunset, Hsub. exact Hp.
Qed.

Lemma getTypeInfo_inherits_from_the_parent_witness :
  ∃ info, typeinfo default_lib !! "str:lwr" = Some info
          ∧ dget info "subof" = VStr "str"
          ∧ (is_none (dget info "doc") = false →
               getTypeInfo default_lib "str:lwr" "doc" VNone = Some (Ok (dget info "doc")))
          ∧ (is_none (dget info "doc") = true →
               ∀ fuel r,
                 info_loop fuel (typeinfo default_lib) (VStr "str") "doc" VNone = Some r →
                 info_loop (S fuel) (typeinfo default_lib) (VStr "str:lwr") "doc" VNone = Some r).
Proof.
  refine (getTypeInfo_inherits_from_the_parent example_host default_lib "str:lwr" "str"
            "doc" VNone _ _).
  - apply init_reachable. vm_compute. reflexivity.
  - vm_compute. reflexivity.
Defined.

(** ** Texts with separators *)

Lemma string_length_app (a b : string) :
  String.length (a ++ b) = (String.length a + String.length b)%nat.
Proof. induction a as [|x a IH]; simpl; [reflexivity | rewrite IH; reflexivity]. Qed.

Lemma mem_app_sep (c : ascii) (a rest : string) : Str.mem c (a ++ String c rest) = true.
Proof.
  induction a as [|x a IH]; simpl.
  - rewrite Ascii.eqb_refl. reflexivity.
  - rewrite IH. apply orb_true_r.
Qed.

(** Scanning a part that holds no separator, up to the separator after it. *)
Lemma split_scan (c : ascii) (p : string) :
  ∀ cur n rest,
    Str.mem c p = false →
    Str.split_go (String c "") (S n) 0 cur (p ++ String c rest)
    = (cur ++ p)%string :: Str.split_go (String c "") n 0 "" rest.
Proof.
  induction p as [|a p IH]; intros cur n rest Hm.
  - simpl. rewrite prefix_char, Ascii.eqb_refl, string_app_nil_r. reflexivity.
  - change (Str.mem c (String a p)) with (Ascii.eqb c a || Str.mem c p) in Hm.
    apply orb_false_iff in Hm as [Ha Hm].
    simpl. rewrite prefix_char, Ha, IH by exact Hm.
    rewrite string_app_assoc. reflexivity.
Qed.

(** A text without the separator is one part, whatever the budget. *)
Lemma split_no_sep (c : ascii) (s : string) :
  ∀ cur n, Str.mem c s = false → Str.split_go (String c "") n 0 cur s = [(cur ++ s)%string].
Proof.
  induction s as [|a s IH]; intros cur n Hm; simpl.
  - rewrite string_app_nil_r. reflexivity.
  - change (Str.mem c (String a s)) with (Ascii.eqb c a || Str.mem c s) in Hm.
    apply orb_false_iff in Hm as [Ha Hm].
    destruct n as [|n]; [reflexivity|].
    rewrite prefix_char, Ha, IH by exact Hm.
    rewrite string_app_assoc. reflexivity.
Qed.

Lemma concat_cons (sep p : string) (ps : list string) (lst : string) :
  String.concat sep (p :: ps ++ [lst]) = (p ++ sep ++ String.concat sep (ps ++ [lst]))%string.
Proof. destruct ps; reflexivity. Qed.


(** The same with splits to spare, when the last part holds no separator. *)
Lemma split_join_spare (c : ascii) (init : list string) (lst : string) :
  ∀ cur n,
    Forall (fun p => Str.mem c p = false) init →
    Str.mem c lst = false →
    (length init ≤ n)%nat →
    Str.split_go (String c "") n 0 cur (String.concat (String c "") (init ++ [lst]))
    = match init with
      | [] => [(cur ++ lst)%string]
      | p :: ps => (cur ++ p)%string :: (ps ++ [lst])%list
      end.
Proof.
  induction init as [|p ps IH]; intros cur n Hall Hlst Hlen.
  - simpl. apply split_no_sep, Hlst.
  - apply Forall_cons in Hall as [Hp Hps].
    destruct n as [|n]; [simpl in Hlen; lia|].
    change ((p :: ps) ++ [lst])%list with (p :: ps ++ [lst]).
    rewrite concat_cons.
    change (String c "" ++ String.concat (String c "") (ps ++ [lst]))%string
      with (String c (String.concat (String c "") (ps ++ [lst]))).
    rewrite split_scan by exact Hp. f_equal.
    rewrite (IH "" n Hps Hlst) by (simpl in Hlen; lia). destruct ps; reflexivity.
Qed.

(** ** XrefType: the text form and the list form *)

(** X22.  The pipe-separated text form of a cross reference is the list
    form: for three parts without [|], [XrefType.norm] of [a|b|c] is
    [XrefType.norm] of the list [[a, b, c]]; and a text of 32 characters
    without [|] is handed to the [guid] type. *)
Theorem xref_text_form_is_the_list_form :
  ∀ H gtn self (a b c : string),
    Str.mem "|" a = false → Str.mem "|" b = false → Str.mem "|" c = false →
    XrefType.norm H gtn self (VStr (a ++ "|" ++ b ++ "|" ++ c))
    = XrefType.norm H gtn self (VList [VStr a; VStr b; VStr c])
    ∧ (String.length a = 32%nat →
         XrefType.norm H gtn self (VStr a) = gtn (VStr "guid") (VStr a)).
Proof.
  intros H gtn self a b c Ha Hb Hc. split.
  - unfold XrefType.norm, XrefType._norm_str.
    change (a ++ "|" ++ b ++ "|" ++ c)%string with (a ++ String "|" (b ++ String "|" c))%string.
    rewrite mem_app_sep, andb_false_r. unfold split_lit, Str.nsplits. simpl (-1 <? 0).
    cbv iota.
    change (a ++ String "|" (b ++ String "|" c))%string
      with (String.concat "|" ([a; b] ++ [c])).
    rewrite (split_join_spare "|" [a; b] c ""); [reflexivity | | exact Hc |].
    + repeat constructor; assumption.
    + change (String.concat "|" ([a; b] ++ [c]))
        with (a ++ String "|" (b ++ String "|" c))%string.
      rewrite string_length_app. simpl. rewrite string_length_app. simpl. lia.
  - intros Hlen. unfold XrefType.norm, XrefType._norm_str.
    rewrite Hlen, Ha. reflexivity.
Qed.

Lemma xref_text_form_is_the_list_form_witness :
  XrefType.norm example_host demo_gtn demo_xref (VStr ("x" ++ "|" ++ "int" ++ "|" ++ "0x10"))
  = XrefType.norm example_host demo_gtn demo_xref (VList [VStr "x"; VStr "int"; VStr "0x10"]).
Proof.
  refine (proj1 (xref_text_form_is_the_list_form example_host demo_gtn demo_xref
                   "x" "int" "0x10" _ _ _)); reflexivity.
Defined.

(** The text form at work: the source value, the type name and the
    normalized target value end up in the sub-properties. *)
Example xref_text_demo :
  XrefType.norm example_host demo_gtn demo_xref (VStr "x|int|0x10")
  = Ok (VStr (guid_of example_host (VList [VStr "x"; VStr "int"; VInt 16])),
        <["xref:int" := VInt 16]> (<["xtype" := VStr "int"]> (<["bar" := VStr "x"]> ∅))).
Proof. vm_compute. reflexivity. Qed.

(** ** SeprType: a normalized text normalizes to itself *)



Section sepr_text.
Context (inorm : Inst → pyval → res (pyval * subs))
        (irepr : Inst → pyval → res pyval)
        (self : Inst) (c : ascii).

End sepr_text.



(** The two passes at work: the words become [True] and [False], and the
    text returned is returned again. *)
Example sepr_flags_demo :
  SeprType.norm demo_flag_inst demo_flag_norm demo_flag_repr demo_flags (VStr "yes/0")
  = Ok (VStr "True/False", <["b" := VInt 0]> (<["a" := VInt 1]> ∅))
  ∧ SeprType.norm demo_flag_inst demo_flag_norm demo_flag_repr demo_flags (VStr "True/False")
    = Ok (VStr "True/False", <["b" := VInt 0]> (<["a" := VInt 1]> ∅)).
Proof. vm_compute. split; reflexivity. Qed.
